(** * Verification of the move-effect compiler ([resources/moves.py])

    The development embeds the three vocabulary normalizers
    ([map_target], [map_stat_name], [map_status_name]), the description
    extractor [get_english_effect] and the effect compiler
    [parse_effect_data] of [resources/moves.py], and settles the
    properties claimed about them. It also embeds the batch loop at the
    end of [resources/moves.py], [extract_move_ids] of
    [resources/needmoves.py] and [fetch_type_data] of
    [resources/effecttypes.py]; what a request returns is an input of the
    model, and the float constants 2.0, 0.5 and 0.0 of the type chart are
    the rationals 2, 1/2 and 0.

    Conventions of the embedding:
    - a Python [dict] literal used as a lookup table is a [gmap] with string
      keys; [d.get(k)] is the lookup [d !! k], [d.get(k, v)] adds a
      default, and [d[k]] is the fallible [getitem], which can raise
      [KeyError];
    - integers are [Z]; a JSON value that may be [null] or a key that may
      be missing is an [option];
    - text is a [string] of ASCII characters; [str.lower], [str.replace],
      the substring test [in] and the two-literal regular expressions
      [lit1.*lit2] given to [re.search] are written out as functions on
      [string];
    - an effect dictionary [{"type": t, "parameters": p}] is the record
      [Effect], with the string [t] kept as it is in the source. *)

From Stdlib Require Import ZArith QArith String Ascii.
From Stdlib Require Import DecimalString DecimalPos DecimalZ.
From stdpp Require Import gmap strings list option sorting.

Local Open Scope Z_scope.
Local Open Scope string_scope.

(* ===================================================================== *)
(** ** Python text primitives                                            *)
(* ===================================================================== *)

Module Text.

(** [c.lower()] on one ASCII character: 'A'..'Z' move down by 32. *)
Definition lower_ascii (c : ascii) : ascii :=
  let n := nat_of_ascii c in
  if ((65 <=? n) && (n <=? 90))%nat then ascii_of_nat (n + 32) else c.

(** [s.lower()]. *)
Fixpoint lower (s : string) : string :=
  match s with
  | EmptyString => EmptyString
  | String c s' => String (lower_ascii c) (lower s')
  end.

(** [sub in s]: [sub] starts at some position of [s]. *)
Fixpoint contains (sub s : string) : bool :=
  String.prefix sub s ||
  match s with
  | EmptyString => false
  | String _ s' => contains sub s'
  end.

(** [s[n:]]. *)
Fixpoint drop_chars (n : nat) (s : string) : string :=
  match n, s with
  | O, _ => s
  | S _, EmptyString => EmptyString
  | S k, String _ s' => drop_chars k s'
  end.

(** The body of [s.replace(old, new)] for a non-empty [old]: scan from the
    left; at an occurrence of [old] emit [new] and skip the rest of the
    occurrence ([skip] counts the characters still to skip), so that
    occurrences are replaced left to right without overlap. *)
Fixpoint replace_from (old new : string) (skip : nat) (s : string) : string :=
  match s with
  | EmptyString => EmptyString
  | String c s' =>
      match skip with
      | S k => replace_from old new k s'
      | O =>
          if String.prefix old s
          then new ++ replace_from old new (String.length old - 1) s'
          else String c (replace_from old new 0 s')
      end
  end.

(** [s.replace(old, new)]; the program only calls it with the two
    non-empty placeholders below. *)
Definition replace (old new s : string) : string := replace_from old new 0 s.

Definition newline : ascii := ascii_of_nat 10.

(** A match of [.*lit] at the start of [s]: [.] is any character but a
    newline (no [re.DOTALL] in the source). *)
Fixpoint dotstar_then (lit s : string) : bool :=
  String.prefix lit s ||
  match s with
  | EmptyString => false
  | String c s' => if Ascii.eqb c newline then false else dotstar_then lit s'
  end.

(** [re.search(r"a.*b", s)] for literals [a] and [b], as a truth value. *)
Fixpoint re_search (a b s : string) : bool :=
  (String.prefix a s && dotstar_then b (drop_chars (String.length a) s)) ||
  match s with
  | EmptyString => false
  | String _ s' => re_search a b s'
  end.

(** [str(n)] for an integer [n]. *)
Definition str (n : Z) : string := NilZero.string_of_int (Z.to_int n).

End Text.

(* ===================================================================== *)
(** ** Taxonomy normalizer: [map_target], [map_stat_name],
       [map_status_name]                                                 *)
(* ===================================================================== *)

Module Normalizer.

Definition target_map : gmap string string :=
  list_to_map
    [ ("specific-move", "user");
      ("selected-pokemon-me-first", "normal_opponent");
      ("ally", "ally");
      ("users-field", "user_side");
      ("user-or-ally", "user_or_ally");
      ("opponents-field", "opponent_side");
      ("user", "user");
      ("random-opponent", "random_opponent");
      ("all-other-pokemon", "all_other_pokemon");
      ("selected-pokemon", "normal_opponent");
      ("all-opponents", "all_adjacent_opponents");
      ("entire-field", "whole_field");
      ("user-and-allies", "user_and_allies");
      ("all-pokemon", "all_pokemon");
      ("all-allies", "all_allies");
      ("fainting-pokemon", "target") ].

(** [target_map.get(pokeapi_target_name, "normal_opponent")] *)
Definition map_target (pokeapi_target_name : string) : string :=
  default "normal_opponent" (target_map !! pokeapi_target_name).

Definition stat_map : gmap string string :=
  list_to_map
    [ ("hp", "hp");
      ("attack", "attack");
      ("defense", "defense");
      ("special-attack", "special_attack");
      ("special-defense", "special_defense");
      ("speed", "speed");
      ("accuracy", "accuracy");
      ("evasion", "evasion") ].

(** [stat_map.get(pokeapi_stat_name)]: [None] when the tag is unknown. *)
Definition map_stat_name (pokeapi_stat_name : string) : option string :=
  stat_map !! pokeapi_stat_name.

(** The values of [status_map] are strings or Python's [None]. *)
Definition status_map : gmap string (option string) :=
  list_to_map
    [ ("paralysis", Some "paralysis");
      ("sleep", Some "sleep");
      ("freeze", Some "freeze");
      ("burn", Some "burn");
      ("poison", Some "poison");
      ("confusion", Some "confusion");
      ("infatuation", Some "infatuation");
      ("trap", Some "bound");
      ("nightmare", Some "nightmare");
      ("torment", Some "torment");
      ("disable", Some "disable");
      ("yawn", Some "yawn");
      ("heal-block", Some "heal_block");
      ("no-type-immunity", Some "no_type_immunity");
      ("leech-seed", Some "leech_seed");
      ("embargo", Some "embargo");
      ("perish-song", Some "perish_song");
      ("ingrain", Some "ingrain");
      ("silence", Some "silence");
      ("badly-poisoned", Some "toxic");
      ("none", None);
      ("unknown", None) ].

(** [status_map.get(pokeapi_ailment_name)]: a missing key and a key
    mapped to [None] both give [None]. *)
Definition map_status_name (pokeapi_ailment_name : string) : option string :=
  default None (status_map !! pokeapi_ailment_name).

(** The canonical target enumeration: the values the table can give. *)
Definition canonical_targets : list string :=
  [ "user"; "ally"; "user_side"; "opponent_side"; "normal_opponent";
    "random_opponent"; "all_adjacent_opponents"; "whole_field";
    "all_other_pokemon"; "user_and_allies"; "all_pokemon"; "all_allies";
    "user_or_ally"; "target" ].

End Normalizer.

(* ===================================================================== *)
(** ** Effect compiler: [get_english_effect], [parse_effect_data]        *)
(* ===================================================================== *)

Module Compiler.
Import Text Normalizer.
Local Open Scope list_scope.
Local Open Scope Z_scope.

(** *** The raw move record ([move_data]) *)

(** One element of [move_data['effect_entries']]:
    [entry['language']['name']] and [entry['effect']]. *)
Record EffectEntry := { entry_language : string; entry_effect : string }.

(** One element of [move_data['stat_changes']]: [change['stat']['name']]
    and [change['change']]. *)
Record StatChange := { stat_name : string; change : Z }.

(** [move_data['meta']]; every field is read with [.get], so each may be
    missing. A missing [meta] block ([move_data.get('meta', {})]) is the
    record with every field [None]. *)
Record Meta := {
  meta_ailment : option string;      (* meta['ailment']['name'] *)
  meta_ailment_chance : option Z;
  meta_healing : option Z;
  meta_stat_chance : option Z;
  meta_flinch_chance : option Z;
  meta_min_hits : option Z;
  meta_max_hits : option Z
}.

Record MoveData := {
  move_name : string;                  (* move_data['name'] *)
  damage_class : string;               (* move_data['damage_class']['name'] *)
  power : option Z;                    (* move_data['power'], may be null *)
  effect_chance : option Z;            (* move_data.get('effect_chance') *)
  meta : Meta;
  stat_changes : list StatChange;      (* move_data.get('stat_changes', []) *)
  effect_entries : list EffectEntry    (* move_data.get('effect_entries', []) *)
}.

(** *** The compiled effect descriptors *)

(** [{"stat": stat, "stages": n}] *)
Record StageChange := { stat : string; stages : Z }.

(** The [parameters] dictionaries the compiler builds. *)
Inductive Parameters :=
| NoParams                                             (* {} *)
| MultiHit (min max : Z)                               (* {"multi_hit": {"min", "max"}} *)
| StatusParams (status target : string)                (* {"status", "target"} *)
| ChangesParams (changes : list StageChange) (target : string)
| HealParams (percent : Z) (target : string)           (* {"percent", "target"} *)
| DamageSource (damage_source : string)                (* {"damage_source"} *)
| FieldParams (effect_type : string) (duration : option Z) (target_side : string).

(** [{"type": t, "parameters": p}] *)
Record Effect := { type : string; parameters : Parameters }.

(** [{"chance": c, "effect": e}] *)
Record Secondary := { chance : Z; effect : Effect }.

(** What a call gives back: a value, or a [KeyError] raised by [d[k]]. *)
Inductive result (A : Type) :=
| Ok (a : A)
| KeyError (key : string).
Arguments Ok {A} a.
Arguments KeyError {A} key.

(** [d[k]] *)
Definition getitem {V} (d : gmap string V) (k : string) : result V :=
  match d !! k with
  | Some v => Ok v
  | None => KeyError k
  end.

(** Python truthiness of a value that is a string or [None]: the string is
    kept when it is not empty. *)
Definition truthy (s : option string) : option string :=
  match s with
  | Some s => if String.eqb s "" then None else Some s
  | None => None
  end.

(** Truthiness of a list. *)
Definition nonempty {A} (l : list A) : bool :=
  match l with [] => false | _ :: _ => true end.

Definition is_set {A} (o : option A) : bool :=
  match o with Some _ => true | None => false end.

(** *** [get_english_effect] *)

Fixpoint get_english_effect (effect_entries : list EffectEntry) : string :=
  match effect_entries with
  | [] => "No English description found."
  | entry :: rest =>
      if String.eqb (entry_language entry) "en"
      then replace "$effect_chance" "{effect_chance}" (entry_effect entry)
      else get_english_effect rest
  end.

(** *** Stage 1: the hardcoded overrides (lines 114-225) *)

Definition field_map : gmap string (string * Z * string) :=
  list_to_map
    [ ("light-screen", ("light_screen", 5, "user"));
      ("reflect", ("reflect", 5, "user"));
      ("mist", ("mist", 5, "user"));
      ("safeguard", ("safeguard", 5, "user"));
      ("tailwind", ("tailwind", 4, "user")) ].

Definition hazard_map : gmap string (string * string) :=
  list_to_map
    [ ("spikes", ("spikes", "opponent"));
      ("toxic-spikes", ("toxic_spikes", "opponent"));
      ("stealth-rock", ("stealth_rock", "opponent"));
      ("sticky-web", ("sticky_web", "opponent")) ].

Definition weather_map : gmap string string :=
  list_to_map
    [ ("rain-dance", "rain");
      ("sunny-day", "harsh_sunlight");
      ("sandstorm", "sandstorm");
      ("hail", "hail") ].

(** The chain of early returns. [None]: no test matched and the general
    logic runs; [Some (Ok e)]: the function returns with primary effect
    [e]; [Some (KeyError k)]: a table was indexed with a key it lacks. *)
Definition override (move_name : string) : option (result Effect) :=
  if bool_decide (move_name ∈ ["light-screen"; "reflect"; "mist"; "safeguard"; "tailwind"])
  then Some
    match getitem field_map move_name with
    | Ok (ty, dur, side) =>
        Ok {| type := "apply_field_effect";
              parameters := FieldParams ty (Some dur) side |}
    | KeyError k => KeyError k
    end
  else if bool_decide (move_name ∈ ["spikes"; "toxic-spikes"; "stealth-rock"; "sticky-web"])
  then Some
    match getitem hazard_map move_name with
    | Ok (ty, side) =>
        Ok {| type := "apply_field_effect";
              parameters := FieldParams ty None side |}
    | KeyError k => KeyError k
    end
  else if bool_decide (move_name ∈ ["rain-dance"; "sunny-day"; "sandstorm"; "hail"])
  then Some
    match getitem weather_map move_name with
    | Ok w =>
        Ok {| type := "apply_field_effect";
              parameters := FieldParams w (Some 5) "whole_field" |}
    | KeyError k => KeyError k
    end
  else if bool_decide (move_name = "trick-room")
  then Some (Ok {| type := "apply_field_effect";
                   parameters := FieldParams "trick_room" (Some 5) "whole_field" |})
  else if bool_decide (move_name = "toxic")
  then Some (Ok {| type := "apply_status";
                   parameters := StatusParams "toxic" "target" |})
  else if bool_decide (move_name = "swords-dance")
  then Some (Ok {| type := "stat_change";
                   parameters :=
                     ChangesParams [{| stat := "attack"; stages := 2 |}] "user" |})
  else if bool_decide (move_name = "recover") || bool_decide (move_name = "roost")
          || bool_decide (move_name = "soft-boiled")
  then Some (Ok {| type := "heal"; parameters := HealParams 50 "user" |})
  else if bool_decide (move_name ∈ ["seismic-toss"; "night-shade"])
  then Some (Ok {| type := "fixed_damage"; parameters := DamageSource "user_level" |})
  else if bool_decide (move_name ∈ ["roar"; "whirlwind"])
  then Some (Ok {| type := "switch_target"; parameters := NoParams |})
  else None.

(** *** Stage 2: general parsing (lines 228-325) *)

(** The local variables read from [meta] at lines 229-236. *)
Definition ailment (move_data : MoveData) : option string :=
  map_status_name (default "none" (meta_ailment (meta move_data))).
Definition ailment_chance (move_data : MoveData) : Z :=
  default 0 (meta_ailment_chance (meta move_data)).
Definition healing (move_data : MoveData) : Z :=
  default 0 (meta_healing (meta move_data)).
Definition stat_chance (move_data : MoveData) : Z :=
  default 0 (meta_stat_chance (meta move_data)).
Definition flinch_chance (move_data : MoveData) : Z :=
  default 0 (meta_flinch_chance (meta move_data)).
Definition min_hits (move_data : MoveData) : option Z :=
  meta_min_hits (meta move_data).
Definition max_hits (move_data : MoveData) : option Z :=
  meta_max_hits (meta move_data).

(** The two literal lists the ailment is tested against (lines 248, 250
    and again 289, 291). *)
Definition volatile_statuses : list string :=
  [ "confusion"; "leech_seed"; "bound"; "infatuation"; "torment"; "disable";
    "yawn"; "heal_block"; "embargo"; "perish_song"; "ingrain" ].
Definition major_statuses : list string :=
  [ "toxic"; "paralysis"; "sleep"; "freeze"; "burn"; "poison" ].

(** The damage effect with its multi-hit range; the same five lines
    occur at 240-244 and at 275-279. *)
Definition damage_effect (move_data : MoveData) : Effect :=
  match min_hits move_data, max_hits move_data with
  | Some mn, Some mx =>
      if bool_decide (move_name move_data = "triple-kick")
      then {| type := "damage"; parameters := MultiHit 3 3 |}
      else {| type := "damage"; parameters := MultiHit mn mx |}
  | _, _ => {| type := "damage"; parameters := NoParams |}
  end.

(** One turn of the loop [for change in stat_changes] (lines 256-261 and
    305-310), on the pair of the loop's variables [(changes, target)]. *)
Definition stat_loop_body (st : list StageChange * string) (c : StatChange)
  : list StageChange * string :=
  match truthy (map_stat_name (stat_name c)) with
  | Some s =>
      (st.1 ++ [{| stat := s; stages := change c |}],
       if change c <? 0 then "target" else "user")
  | None => st
  end.

(** The whole loop, from [changes = []] and [target = init]. *)
Definition stat_loop (init : string) (l : list StatChange)
  : list StageChange * string :=
  fold_left stat_loop_body l ([], init).

(** The [if]/[elif] chain of lines 239-269: [None] when no branch has
    assigned [primary_effect]. *)
Definition determined_primary (move_data : MoveData) : option Effect :=
  if bool_decide (damage_class move_data ∈ ["physical"; "special"])
     && is_set (power move_data)
  then Some (damage_effect move_data)
  else if bool_decide (damage_class move_data = "status")
  then
    let later_branches :=
      if nonempty (stat_changes move_data) && (stat_chance move_data =? 0)
      then
        let '(changes, target) := stat_loop "user" (stat_changes move_data) in
        if nonempty changes
        then Some {| type := "stat_change";
                     parameters := ChangesParams changes target |}
        else None
      else if healing move_data >? 0
      then Some {| type := "heal";
                   parameters := HealParams (healing move_data) "user" |}
      else None
    in
    match truthy (ailment move_data) with
    | Some a =>
        if ailment_chance move_data =? 0
        then
          if bool_decide (a ∈ volatile_statuses)
          then Some {| type := "apply_volatile_status";
                       parameters := StatusParams a "target" |}
          else if bool_decide (a ∈ major_statuses)
          then Some {| type := "apply_status";
                       parameters := StatusParams a "target" |}
          else None
        else later_branches
    | None => later_branches
    end
  else None.

(** Lines 273-281: the default when nothing was determined. *)
Definition primary_effect (move_data : MoveData) : Effect :=
  match determined_primary move_data with
  | Some e => e
  | None =>
      if bool_decide (damage_class move_data ∈ ["physical"; "special"])
      then damage_effect move_data
      else {| type := "unknown_status"; parameters := NoParams |}
  end.

(** Lines 288-294: the type given to a probabilistic ailment. *)
Definition status_type (a : string) : option string :=
  if bool_decide (a ∈ major_statuses) then Some "apply_status"
  else if bool_decide (a ∈ volatile_statuses) then Some "apply_volatile_status"
  else None.

(** Lines 285-322: the list [secondary_candidates], grown by [append]. *)
Definition secondary_candidates (move_data : MoveData) : list Secondary :=
  let c0 := [] in
  let c1 :=
    match truthy (ailment move_data) with
    | Some a =>
        if ailment_chance move_data >? 0
        then
          match truthy (status_type a) with
          | Some ty =>
              c0 ++ [{| chance := ailment_chance move_data;
                        effect := {| type := ty;
                                     parameters := StatusParams a "target" |} |}]
          | None => c0
          end
        else c0
    | None => c0
    end in
  let c2 :=
    if nonempty (stat_changes move_data) && (stat_chance move_data >? 0)
    then
      let '(changes, target) := stat_loop "target" (stat_changes move_data) in
      if nonempty changes
      then c1 ++ [{| chance := stat_chance move_data;
                     effect := {| type := "stat_change";
                                  parameters := ChangesParams changes target |} |}]
      else c1
    else c1 in
  if flinch_chance move_data >? 0
  then c2 ++ [{| chance := flinch_chance move_data;
                 effect := {| type := "apply_volatile_status";
                              parameters := StatusParams "flinch" "target" |} |}]
  else c2.

(** Lines 324-325: [secondary_candidates[0]] when the list is not empty. *)
Definition structured_secondary (move_data : MoveData) : option Secondary :=
  match secondary_candidates move_data with
  | [] => None
  | c :: _ => Some c
  end.

(** *** Stage 3: inference from the description (lines 329-350) *)

Definition status_on_target (ty status : string) : Effect :=
  {| type := ty; parameters := StatusParams status "target" |}.

Definition one_stage_drop (s : string) : Effect :=
  {| type := "stat_change";
     parameters := ChangesParams [{| stat := s; stages := -1 |}] "target" |}.

(** The [if]/[elif] chain of lines 332-343 over [desc_lower]. *)
Definition inferred_secondary (desc_lower : string) : option Effect :=
  if contains "paralyze" desc_lower
  then Some (status_on_target "apply_status" "paralysis")
  else if contains "burn" desc_lower
  then Some (status_on_target "apply_status" "burn")
  else if contains "freeze" desc_lower
  then Some (status_on_target "apply_status" "freeze")
  else if contains "poison" desc_lower
  then Some (status_on_target "apply_status" "poison")
  else if contains "flinch" desc_lower
  then Some (status_on_target "apply_volatile_status" "flinch")
  else if contains "confuse" desc_lower || contains "confusion" desc_lower
  then Some (status_on_target "apply_volatile_status" "confusion")
  else if re_search "lower" "attack" desc_lower
  then Some (one_stage_drop "attack")
  else if re_search "lower" "defense" desc_lower
  then Some (one_stage_drop "defense")
  else if re_search "lower" "special attack" desc_lower
  then Some (one_stage_drop "special_attack")
  else if re_search "lower" "special defense" desc_lower
  then Some (one_stage_drop "special_defense")
  else if re_search "lower" "speed" desc_lower
  then Some (one_stage_drop "speed")
  else if re_search "lower" "accuracy" desc_lower
  then Some (one_stage_drop "accuracy")
  else None.

(** Lines 329-350: the secondary effect after the final adjustment. *)
Definition final_secondary (move_data : MoveData) (description : string)
  : option Secondary :=
  match structured_secondary move_data, effect_chance move_data with
  | None, Some ec =>
      if ec >? 0
      then
        match inferred_secondary (lower description) with
        | Some e => Some {| chance := ec; effect := e |}
        | None => None
        end
      else None
  | secondary_effect, _ => secondary_effect
  end.

(** Lines 354-358: the text put in place of the placeholder. *)
Definition display_chance (secondary_effect : option Secondary)
    (effect_chance : option Z) : string :=
  match secondary_effect with
  | Some s => str (chance s)
  | None =>
      match effect_chance with
      | Some ec => str ec
      | None => "0"
      end
  end.

(** *** [parse_effect_data] *)

(** The function returns the triple
    [(primary_effect, secondary_effect, description)]. *)
Definition parse_effect_data (move_data : MoveData)
  : result (Effect * option Secondary * string) :=
  let description := get_english_effect (effect_entries move_data) in
  match override (move_name move_data) with
  | Some (Ok e) => Ok (e, None, replace "{effect_chance}" "0" description)
  | Some (KeyError k) => KeyError k
  | None =>
      let secondary_effect := final_secondary move_data description in
      Ok (primary_effect move_data,
          secondary_effect,
          replace "{effect_chance}"
            (display_chance secondary_effect (effect_chance move_data))
            description)
  end.

(** *** The override table as the specification lists it

    Move name and the primary effect it is mapped to: the screens and
    field buffs on the user's side, the persistent hazards on the
    opponent's side, the weather setters and trick-room on the whole field,
    toxic, swords-dance, the three healing moves, the two fixed-damage
    moves and the two forced-switch moves. *)
Definition field_effect (ty : string) (dur : option Z) (side : string) : Effect :=
  {| type := "apply_field_effect"; parameters := FieldParams ty dur side |}.

Definition spec_override_table : list (string * Effect) :=
  [ ("light-screen", field_effect "light_screen" (Some 5) "user");
    ("reflect", field_effect "reflect" (Some 5) "user");
    ("mist", field_effect "mist" (Some 5) "user");
    ("safeguard", field_effect "safeguard" (Some 5) "user");
    ("tailwind", field_effect "tailwind" (Some 4) "user");
    ("spikes", field_effect "spikes" None "opponent");
    ("toxic-spikes", field_effect "toxic_spikes" None "opponent");
    ("stealth-rock", field_effect "stealth_rock" None "opponent");
    ("sticky-web", field_effect "sticky_web" None "opponent");
    ("rain-dance", field_effect "rain" (Some 5) "whole_field");
    ("sunny-day", field_effect "harsh_sunlight" (Some 5) "whole_field");
    ("sandstorm", field_effect "sandstorm" (Some 5) "whole_field");
    ("hail", field_effect "hail" (Some 5) "whole_field");
    ("trick-room", field_effect "trick_room" (Some 5) "whole_field");
    ("toxic", status_on_target "apply_status" "toxic");
    ("swords-dance",
      {| type := "stat_change";
         parameters := ChangesParams [{| stat := "attack"; stages := 2 |}] "user" |});
    ("recover", {| type := "heal"; parameters := HealParams 50 "user" |});
    ("roost", {| type := "heal"; parameters := HealParams 50 "user" |});
    ("soft-boiled", {| type := "heal"; parameters := HealParams 50 "user" |});
    ("seismic-toss",
      {| type := "fixed_damage"; parameters := DamageSource "user_level" |});
    ("night-shade",
      {| type := "fixed_damage"; parameters := DamageSource "user_level" |});
    ("roar", {| type := "switch_target"; parameters := NoParams |});
    ("whirlwind", {| type := "switch_target"; parameters := NoParams |}) ].

(** The names that match an override. *)
Definition override_names : list string := spec_override_table.*1.

(** *** Records used as concrete inputs *)

Definition no_meta : Meta :=
  {| meta_ailment := None; meta_ailment_chance := None; meta_healing := None;
     meta_stat_chance := None; meta_flinch_chance := None;
     meta_min_hits := None; meta_max_hits := None |}.

Definition english (text : string) : list EffectEntry :=
  [{| entry_language := "en"; entry_effect := text |}].

(** A special move with a generic effect chance of 10, no chance in its
    meta block, and a description that says "may cause paralysis". *)
Definition paralysis_text_move : MoveData :=
  {| move_name := "thunder-shock"; damage_class := "special";
     power := Some 40; effect_chance := Some 10;
     meta := {| meta_ailment := Some "none"; meta_ailment_chance := Some 0;
                meta_healing := Some 0; meta_stat_chance := Some 0;
                meta_flinch_chance := Some 0;
                meta_min_hits := None; meta_max_hits := None |};
     stat_changes := [];
     effect_entries :=
       english "Inflicts regular damage. Has a $effect_chance% chance; may cause paralysis." |}.

(** The same move with the wording of the data provider. *)
Definition paralyze_text_move : MoveData :=
  {| move_name := "thunder-shock"; damage_class := "special";
     power := Some 40; effect_chance := Some 10;
     meta := meta paralysis_text_move;
     stat_changes := [];
     effect_entries :=
       english "Inflicts regular damage. Has a $effect_chance% chance to paralyze the target." |}.

(** A physical record with a power whose name is in the override chain. *)
Definition seismic_toss_with_power : MoveData :=
  {| move_name := "seismic-toss"; damage_class := "physical";
     power := Some 1; effect_chance := None;
     meta := no_meta; stat_changes := [];
     effect_entries := english "Inflicts damage equal to the user's level." |}.

(** A plain physical move. *)
Definition tackle : MoveData :=
  {| move_name := "tackle"; damage_class := "physical";
     power := Some 40; effect_chance := None;
     meta := no_meta; stat_changes := [];
     effect_entries := english "Inflicts regular damage." |}.

(** triple-kick with the hit counts [mn], [mx] in its meta block. *)
Definition triple_kick (mn mx : option Z) : MoveData :=
  {| move_name := "triple-kick"; damage_class := "physical";
     power := Some 10; effect_chance := None;
     meta := {| meta_ailment := Some "none"; meta_ailment_chance := Some 0;
                meta_healing := Some 0; meta_stat_chance := Some 0;
                meta_flinch_chance := Some 0;
                meta_min_hits := mn; meta_max_hits := mx |};
     stat_changes := [];
     effect_entries := english "Hits three times in one turn." |}.

(** A status move that changes the stats in [l] for certain, with the
    ailment tag [ail] and the healing percent [heal]. *)
Definition stat_move (ail : string) (heal : Z) (l : list StatChange) : MoveData :=
  {| move_name := "stat-move"; damage_class := "status";
     power := None; effect_chance := None;
     meta := {| meta_ailment := Some ail; meta_ailment_chance := Some 0;
                meta_healing := Some heal; meta_stat_chance := Some 0;
                meta_flinch_chance := Some 0;
                meta_min_hits := None; meta_max_hits := None |};
     stat_changes := l;
     effect_entries := english "Changes stats." |}.

Definition raise_then_lower : list StatChange :=
  [ {| stat_name := "attack"; change := 1 |};
    {| stat_name := "defense"; change := -1 |} ].

(** An override move whose record carries a generic effect chance. *)
Definition toxic_with_chance : MoveData :=
  {| move_name := "toxic"; damage_class := "status";
     power := None; effect_chance := Some 10;
     meta := no_meta; stat_changes := [];
     effect_entries := english "Has a $effect_chance% chance to badly poison the target." |}.

(** A damaging move with a stat chance and a flinch chance, and no ailment
    chance. *)
Definition stat_and_flinch_move : MoveData :=
  {| move_name := "crush-bite"; damage_class := "physical";
     power := Some 60; effect_chance := Some 20;
     meta := {| meta_ailment := Some "none"; meta_ailment_chance := Some 0;
                meta_healing := Some 0; meta_stat_chance := Some 20;
                meta_flinch_chance := Some 30;
                meta_min_hits := None; meta_max_hits := None |};
     stat_changes := [ {| stat_name := "defense"; change := -1 |} ];
     effect_entries := english "Has a $effect_chance% chance to lower defense or flinch." |}.

(** *** Vocabulary of the statements *)

(** The stage changes whose stat tag the normalizer recognizes, in the
    order of the record. *)
Definition recognized_changes (l : list StatChange) : list StageChange :=
  omap (λ c, s ← map_stat_name (stat_name c);
             Some {| stat := s; stages := change c |}) l.

(** The side a stage change points to: the opponent when it lowers. *)
Definition side_of (c : StageChange) : string :=
  if stages c <? 0 then "target" else "user".

(** The target after the loop: the side of the last recognized change, or
    the initial value when there is none. *)
Definition target_after (init : string) (chs : list StageChange) : string :=
  from_option side_of init (list.last chs).

(** The record's generic effect chance, its three meta chances and the
    range they are said to lie in. *)
Definition percent (n : Z) : Prop := 0 <= n <= 100.

Definition chances_in_range (move_data : MoveData) : Prop :=
  percent (ailment_chance move_data) ∧ percent (stat_chance move_data) ∧
  percent (flinch_chance move_data) ∧
  (∀ ec, effect_chance move_data = Some ec → percent ec).

Definition unknown_status : Effect :=
  {| type := "unknown_status"; parameters := NoParams |}.

End Compiler.

(* ===================================================================== *)
(** ** The shape of compiled effects                                     *)
(* ===================================================================== *)

Module Shape.
Import Text Normalizer Compiler.
Local Open Scope list_scope.
Local Open Scope Z_scope.

(** The canonical stat enumeration: the values of [stat_map]. *)
Definition canonical_stats : list string :=
  [ "hp"; "attack"; "defense"; "special_attack"; "special_defense"; "speed";
    "accuracy"; "evasion" ].

(** The effect types with the parameters that belong to each: what a
    consumer of the compiled entries can rely on. *)
Definition well_formed (e : Effect) : Prop :=
  match parameters e with
  | NoParams => type e ∈ ["damage"; "switch_target"; "unknown_status"]
  | MultiHit _ _ => type e = "damage"
  | StatusParams status target =>
      target = "target" ∧
      ((type e = "apply_status" ∧ status ∈ major_statuses) ∨
       (type e = "apply_volatile_status" ∧
        status ∈ "flinch" :: volatile_statuses))
  | ChangesParams changes target =>
      type e = "stat_change" ∧ changes ≠ [] ∧ target ∈ ["user"; "target"] ∧
      Forall (λ c, stat c ∈ canonical_stats) changes
  | HealParams percent target =>
      type e = "heal" ∧ 0 < percent ∧ target = "user"
  | DamageSource damage_source =>
      type e = "fixed_damage" ∧ damage_source = "user_level"
  | FieldParams _ _ target_side =>
      type e = "apply_field_effect" ∧
      target_side ∈ ["user"; "opponent"; "whole_field"]
  end.

(** The effects a secondary effect can carry. *)
Definition secondary_shape (e : Effect) : Prop :=
  well_formed e ∧
  type e ∈ ["apply_status"; "apply_volatile_status"; "stat_change"].

(** The effects the description scan can give: four major statuses, two
    volatile ones and a one-stage drop of four stats. *)
Definition inferable_effects : list Effect :=
  [ status_on_target "apply_status" "paralysis";
    status_on_target "apply_status" "burn";
    status_on_target "apply_status" "freeze";
    status_on_target "apply_status" "poison";
    status_on_target "apply_volatile_status" "flinch";
    status_on_target "apply_volatile_status" "confusion";
    one_stage_drop "attack";
    one_stage_drop "defense";
    one_stage_drop "speed";
    one_stage_drop "accuracy" ].

(** The provider ailment tags whose canonical name is in neither literal
    list of the compiler. *)
Definition unclassified_ailment_tags : list string :=
  [ "nightmare"; "no-type-immunity"; "silence" ].

(** The characters of a string. *)
Fixpoint chars (s : string) : list ascii :=
  match s with
  | EmptyString => []
  | String c s' => c :: chars s'
  end.

(** *** The candidate list as the specification orders it

    Three independent sources in fixed priority: the ailment when its
    chance is positive and its name is classified, then the recognized stat
    changes when the stat chance is positive, then the flinch when its
    chance is positive. *)
Definition ailment_candidate (move_data : MoveData) : list Secondary :=
  match ailment move_data with
  | Some a =>
      if bool_decide (0 < ailment_chance move_data)
      then
        if bool_decide (a ∈ major_statuses)
        then [ {| chance := ailment_chance move_data;
                  effect := status_on_target "apply_status" a |} ]
        else if bool_decide (a ∈ volatile_statuses)
        then [ {| chance := ailment_chance move_data;
                  effect := status_on_target "apply_volatile_status" a |} ]
        else []
      else []
  | None => []
  end.

Definition stat_candidate (move_data : MoveData) : list Secondary :=
  if bool_decide (0 < stat_chance move_data)
     && nonempty (recognized_changes (stat_changes move_data))
  then [ {| chance := stat_chance move_data;
            effect :=
              {| type := "stat_change";
                 parameters :=
                   ChangesParams (recognized_changes (stat_changes move_data))
                     (target_after "target"
                        (recognized_changes (stat_changes move_data))) |} |} ]
  else [].

Definition flinch_candidate (move_data : MoveData) : list Secondary :=
  if bool_decide (0 < flinch_chance move_data)
  then [ {| chance := flinch_chance move_data;
            effect := status_on_target "apply_volatile_status" "flinch" |} ]
  else [].

(** A damaging move with all three signals: a burn chance, a stat chance
    and a flinch chance. *)
Definition burn_drop_flinch_move : MoveData :=
  {| move_name := "fire-fang"; damage_class := "physical";
     power := Some 65; effect_chance := Some 10;
     meta := {| meta_ailment := Some "burn"; meta_ailment_chance := Some 10;
                meta_healing := Some 0; meta_stat_chance := Some 20;
                meta_flinch_chance := Some 30;
                meta_min_hits := None; meta_max_hits := None |};
     stat_changes := [ {| stat_name := "defense"; change := -1 |} ];
     effect_entries :=
       english "Has a $effect_chance% chance to burn the target or make it flinch." |}.

End Shape.

(* ===================================================================== *)
(** ** The batch driver (the script at the end of [resources/moves.py])   *)
(* ===================================================================== *)

Module Driver.
Import Text Normalizer Compiler.
Local Open Scope list_scope.
Local Open Scope Z_scope.

(** The document [response.json()] of one move: the fields the script
    copies, and in [json_move] the fields [parse_effect_data] reads. *)
Record MoveJson := {
  json_id : Z;                    (* move_data['id'] *)
  json_accuracy : option Z;       (* move_data['accuracy'], may be null *)
  json_pp : option Z;             (* move_data['pp'] *)
  json_priority : Z;              (* move_data['priority'] *)
  json_type : string;             (* move_data['type']['name'] *)
  json_target : string;           (* move_data['target']['name'] *)
  json_move : MoveData
}.

(** The dictionary [move_output] (lines 391-404). *)
Record MoveOutput := {
  out_id : Z;
  out_name : string;
  out_accuracy : option Z;
  out_power : option Z;
  out_pp : option Z;
  out_priority : Z;
  out_type : string;
  out_damage_class : string;
  out_target : string;
  out_effect : Effect;
  out_secondary_effect : option Secondary;
  out_description : string
}.

(** What one turn's request gives. [RequestFailed]: [requests.get] or
    [raise_for_status] raises a [RequestException] (handler of line 409).
    [ProcessingRaised]: the body is not a document of the typed record
    [MoveJson] and lines 382-406 raise on it, for instance ["meta": null] on
    a move that reaches line 229, or a null chance compared at line 287, 302
    or 318 (handler of line 411). [Fetched]: the body is a document of the
    typed record, or is read as one (an override move with ["meta": null],
    whose meta block is never read). *)
Inductive Fetch :=
| RequestFailed
| ProcessingRaised
| Fetched (move_data : MoveJson).

(** Lines 384-404 for one document of the typed record: [None] when the
    move is skipped (no effect entries, line 385) or when
    [parse_effect_data] raises and the handler of line 411 takes over. *)
Definition move_output (move_data : MoveJson) : option MoveOutput :=
  if nonempty (effect_entries (json_move move_data))
  then
    match parse_effect_data (json_move move_data) with
    | Ok (primary_effect, secondary_effect, description) =>
        Some {| out_id := json_id move_data;
                out_name := move_name (json_move move_data);
                out_accuracy := json_accuracy move_data;
                out_power := power (json_move move_data);
                out_pp := json_pp move_data;
                out_priority := json_priority move_data;
                out_type := json_type move_data;
                out_damage_class := damage_class (json_move move_data);
                out_target := map_target (json_target move_data);
                out_effect := primary_effect;
                out_secondary_effect := secondary_effect;
                out_description := description |}
    | KeyError _ => None
    end
  else None.

(** One turn of [for move_id in move_ids] (lines 376-412) on the
    dictionary [all_moves_data], with the outcome of the turn's request. *)
Definition process (all_moves_data : gmap string MoveOutput) (turn : Z * Fetch)
  : gmap string MoveOutput :=
  match turn.2 with
  | RequestFailed => all_moves_data
  | ProcessingRaised => all_moves_data
  | Fetched move_data =>
      match move_output move_data with
      | Some out => <[str turn.1 := out]> all_moves_data
      | None => all_moves_data
      end
  end.

(** The whole loop, from [all_moves_data = {}]. *)
Definition main_loop (turns : list (Z * Fetch)) : gmap string MoveOutput :=
  fold_left process turns ∅.

(** A fetched document and the entry compiled from it. *)
Definition tackle_json : MoveJson :=
  {| json_id := 33; json_accuracy := Some 100; json_pp := Some 35;
     json_priority := 0; json_type := "normal";
     json_target := "selected-pokemon"; json_move := tackle |}.

Definition tackle_output : MoveOutput :=
  {| out_id := 33; out_name := "tackle"; out_accuracy := Some 100;
     out_power := Some 40; out_pp := Some 35; out_priority := 0;
     out_type := "normal"; out_damage_class := "physical";
     out_target := "normal_opponent";
     out_effect := {| type := "damage"; parameters := NoParams |};
     out_secondary_effect := None;
     out_description := "Inflicts regular damage." |}.

(** The entry a turn leaves, if any. *)
Definition entry_of (response : Fetch) : option MoveOutput :=
  match response with
  | RequestFailed => None
  | ProcessingRaised => None
  | Fetched move_data => move_output move_data
  end.

End Driver.

(* ===================================================================== *)
(** ** The move-id list ([resources/needmoves.py])                       *)
(* ===================================================================== *)

Module Roster.
Local Open Scope list_scope.
Local Open Scope Z_scope.

(** An element of [pokemon_data['pokemons']]; only [pokemon['moves']] is
    read. A move is a JSON array whose first item is the move id. *)
Record Pokemon := { moves : list (list Z) }.

(** [for move in pokemon['moves']: move_ids.add(move[0])]; [None] is the
    [IndexError] of [move[0]] on an empty array. *)
Fixpoint add_moves (move_ids : gset Z) (ms : list (list Z)) : option (gset Z) :=
  match ms with
  | [] => Some move_ids
  | move :: rest =>
      match move with
      | [] => None
      | move_id :: _ => add_moves ({[move_id]} ∪ move_ids) rest
      end
  end.

(** [for pokemon in pokemon_data['pokemons']: ...] *)
Fixpoint add_pokemons (move_ids : gset Z) (pokemons : list Pokemon)
  : option (gset Z) :=
  match pokemons with
  | [] => Some move_ids
  | pokemon :: rest =>
      match add_moves move_ids (moves pokemon) with
      | Some move_ids' => add_pokemons move_ids' rest
      | None => None
      end
  end.

(** The list written to [needmoves.json]: [sorted(list(move_ids))]. *)
Definition extract_move_ids (pokemons : list Pokemon) : option (list Z) :=
  match add_pokemons ∅ pokemons with
  | Some move_ids => Some (merge_sort Z.le (elements move_ids))
  | None => None
  end.

(** All the moves of a roster, in order. *)
Definition all_moves (pokemons : list Pokemon) : list (list Z) :=
  pokemons ≫= moves.

End Roster.

(* ===================================================================== *)
(** ** The type chart ([resources/effecttypes.py])                       *)
(* ===================================================================== *)

Module TypeChart.
Local Open Scope list_scope.

(** [data["damage_relations"]]: the names in the three lists the function
    reads. *)
Record DamageRelations := {
  double_damage_to : list string;
  half_damage_to : list string;
  no_damage_to : list string
}.

Definition type_names : list string :=
  [ "normal"; "fire"; "water"; "grass"; "electric"; "ice"; "fighting";
    "poison"; "ground"; "flying"; "psychic"; "bug"; "rock"; "ghost";
    "dragon"; "steel"; "dark"; "fairy" ].

(** [for target in targets: type_chart[type_name][target["name"]] = v] *)
Definition set_all (type_name : string) (v : Q) (targets : list string)
    (type_chart : gmap string (gmap string Q)) : gmap string (gmap string Q) :=
  fold_left (λ chart target, alter (insert target v) type_name chart)
    targets type_chart.

(** One turn of [for type_name in type_names]; [responses type_name] is
    [None] when the status code is not 200. *)
Definition add_type (responses : string → option DamageRelations)
    (type_chart : gmap string (gmap string Q)) (type_name : string)
  : gmap string (gmap string Q) :=
  match responses type_name with
  | None => type_chart
  | Some damage_relations =>
      let chart0 := <[type_name := ∅]> type_chart in
      let chart1 := set_all type_name 2%Q (double_damage_to damage_relations) chart0 in
      let chart2 := set_all type_name (1 # 2)%Q (half_damage_to damage_relations) chart1 in
      set_all type_name 0%Q (no_damage_to damage_relations) chart2
  end.

Definition fetch_type_data (responses : string → option DamageRelations)
  : gmap string (gmap string Q) :=
  fold_left (add_type responses) type_names ∅.

(** [for target in targets: row[target] = v] on one row. *)
Definition set_row (v : Q) (targets : list string) (row : gmap string Q)
  : gmap string Q :=
  fold_left (λ r target, <[target := v]> r) targets row.

(** The row the three loops build from the empty dictionary. *)
Definition row_of (damage_relations : DamageRelations) : gmap string Q :=
  set_row 0%Q (no_damage_to damage_relations)
    (set_row (1 # 2)%Q (half_damage_to damage_relations)
       (set_row 2%Q (double_damage_to damage_relations) ∅)).

(** The multiplier the three lists give a target: the last list that names
    it wins. *)
Definition multiplier (damage_relations : DamageRelations) (target : string)
  : option Q :=
  if bool_decide (target ∈ no_damage_to damage_relations) then Some 0%Q
  else if bool_decide (target ∈ half_damage_to damage_relations) then Some (1 # 2)%Q
  else if bool_decide (target ∈ double_damage_to damage_relations) then Some 2%Q
  else None.

End TypeChart.

Import Text Normalizer Compiler.
Import Shape Driver Roster TypeChart.
Local Open Scope list_scope.
Local Open Scope Z_scope.

(* ===================================================================== *)
(** ** Facts about the tables                                            *)
(* ===================================================================== *)

(** Case analysis on membership in a list written out in full. *)
Ltac list_cases H :=
  repeat (apply elem_of_cons in H as [H | H]; [ | ]);
  [ .. | by apply elem_of_nil in H ].

(** A closed decidable proposition, settled by evaluation. *)
Ltac by_evaluation := apply (bool_decide_unpack _); vm_compute; exact I.

Lemma getitem_list_to_map {V} (l : list (string * V)) k v :
  (list_to_map l : gmap string V) !! k = Some v → (k, v) ∈ l.
Proof. apply elem_of_list_to_map_2. Qed.

(** The normalizer never gives back an empty stat name, so the truth test
    [if stat:] is the test that the tag is recognized. *)
Lemma truthy_map_stat_name t : truthy (map_stat_name t) = map_stat_name t.
Proof.
  unfold map_stat_name, stat_map.
  destruct (_ !! t) as [s|] eqn:E; [ | done ].
  apply getitem_list_to_map in E.
  list_cases E; by simplify_eq.
Qed.

(** Nor an empty status name. *)
Lemma truthy_map_status_name t : truthy (map_status_name t) = map_status_name t.
Proof.
  unfold map_status_name, status_map.
  destruct (_ !! t) as [[s|]|] eqn:E; [ | done | done ].
  apply getitem_list_to_map in E.
  list_cases E; by simplify_eq.
Qed.

Lemma truthy_ailment md : truthy (ailment md) = ailment md.
Proof. apply truthy_map_status_name. Qed.

(** Every value of the target table is a canonical target. *)
Lemma target_map_canonical t v :
  target_map !! t = Some v → v ∈ canonical_targets.
Proof.
  unfold target_map. intros E. apply getitem_list_to_map in E.
  list_cases E; simplify_eq; by_evaluation.
Qed.

(* ===================================================================== *)
(** ** The override chain against the specification's table               *)
(* ===================================================================== *)

(** A name of the table takes the early return with the mapped effect. *)
Lemma override_listed n e :
  (n, e) ∈ spec_override_table → override n = Some (Ok e).
Proof.
  unfold spec_override_table. intros H.
  list_cases H; simplify_eq; vm_compute; reflexivity.
Qed.

(** Any other name falls through every test of the chain. *)
Lemma override_not_listed n : n ∉ override_names → override n = None.
Proof.
  intros H. unfold override.
  repeat (case_bool_decide as Hn;
          [ exfalso; apply H; clear H;
            first [ subst n; by_evaluation
                  | list_cases Hn; subst n; by_evaluation ]
          | clear Hn; simpl ]).
  reflexivity.
Qed.

Lemma override_names_listed n :
  n ∈ override_names → ∃ e, (n, e) ∈ spec_override_table.
Proof.
  unfold override_names. intros H.
  apply list_elem_of_fmap in H as [[n' e] [-> H]]. by exists e.
Qed.

(** The chain never indexes a table with a key it lacks. *)
Lemma override_cases n :
  (override n = None ∧ n ∉ override_names) ∨
  (∃ e, (n, e) ∈ spec_override_table ∧ override n = Some (Ok e)).
Proof.
  destruct (decide (n ∈ override_names)) as [Hin | Hout].
  - right. apply override_names_listed in Hin as [e He].
    exists e. split; [ done | by apply override_listed ].
  - left. split; [ by apply override_not_listed | done ].
Qed.

(** Outside the table, [parse_effect_data] is the general logic. *)
Lemma parse_general md :
  move_name md ∉ override_names →
  parse_effect_data md =
    Ok (primary_effect md,
        final_secondary md (get_english_effect (effect_entries md)),
        replace "{effect_chance}"
          (display_chance
             (final_secondary md (get_english_effect (effect_entries md)))
             (effect_chance md))
          (get_english_effect (effect_entries md))).
Proof.
  intros H. unfold parse_effect_data. by rewrite override_not_listed.
Qed.

(** In the table, it is the early return. *)
Lemma parse_override md e :
  (move_name md, e) ∈ spec_override_table →
  parse_effect_data md =
    Ok (e, None,
        replace "{effect_chance}" "0" (get_english_effect (effect_entries md))).
Proof.
  intros H. unfold parse_effect_data. by rewrite (override_listed _ e).
Qed.

(** [parse_effect_data] returns for every record. *)
Lemma parse_effect_data_returns md :
  ∃ p s d, parse_effect_data md = Ok (p, s, d).
Proof.
  destruct (override_cases (move_name md)) as [[_ H] | [e [H _]]].
  - rewrite parse_general by done. eauto.
  - rewrite (parse_override md e) by done. eauto.
Qed.

(* ===================================================================== *)
(** ** The stat-change loop                                              *)
(* ===================================================================== *)

Lemma target_after_snoc init chs c :
  target_after init (chs ++ [c]) = side_of c.
Proof. unfold target_after. by rewrite last_snoc. Qed.

(** The loop from any state: it appends the recognized changes and leaves
    the side of the last of them in [target]. *)
Lemma stat_loop_from l acc tgt :
  fold_left stat_loop_body l (acc, tgt) =
    (acc ++ recognized_changes l, target_after tgt (recognized_changes l)).
Proof.
  revert acc tgt. induction l as [ | c l IH ]; intros acc tgt.
  - simpl. by rewrite app_nil_r.
  - simpl. unfold stat_loop_body at 2. rewrite truthy_map_stat_name.
    unfold recognized_changes. simpl.
    destruct (map_stat_name (stat_name c)) as [s|]; simpl.
    + rewrite IH. rewrite <- app_assoc. simpl. f_equal.
      fold (recognized_changes l).
      unfold target_after. rewrite last_cons.
      by destruct (list.last (recognized_changes l)).
    + apply IH.
Qed.

Lemma stat_loop_spec init l :
  stat_loop init l =
    (recognized_changes l, target_after init (recognized_changes l)).
Proof. unfold stat_loop. by rewrite stat_loop_from. Qed.

Lemma recognized_changes_nonempty l c :
  c ∈ l → is_Some (map_stat_name (stat_name c)) → recognized_changes l ≠ [].
Proof.
  intros Hin [s Hs] Hnil.
  assert ({| stat := s; stages := change c |} ∈ recognized_changes l) as H.
  { unfold recognized_changes. apply list_elem_of_omap. exists c.
    split; [ done | ]. by rewrite Hs. }
  rewrite Hnil in H. by apply elem_of_nil in H.
Qed.

Lemma recognized_changes_none l :
  (∀ c, c ∈ l → map_stat_name (stat_name c) = None) → recognized_changes l = [].
Proof.
  induction l as [ | c l IH ]; intros H; [ done | ].
  unfold recognized_changes. simpl.
  rewrite (H c) by apply list_elem_of_here. simpl.
  apply IH. intros c' Hc'. apply H. by apply list_elem_of_further.
Qed.

Lemma nonempty_true {A} (l : list A) : l ≠ [] → nonempty l = true.
Proof. by destruct l. Qed.


(* ===================================================================== *)
(** ** The primary effect                                                *)
(* ===================================================================== *)

Lemma primary_effect_damaging md :
  damage_class md ∈ ["physical"; "special"] →
  primary_effect md = damage_effect md.
Proof.
  intros Hdc. unfold primary_effect, determined_primary.
  rewrite (bool_decide_eq_true_2 _ Hdc).
  destruct (power md) as [pw|]; [ reflexivity | ].
  assert (damage_class md ≠ "status") as Hne.
  { intros E. rewrite E in Hdc. revert Hdc. by_evaluation. }
  rewrite (bool_decide_eq_false_2 _ Hne).
  rewrite andb_false_r. reflexivity.
Qed.

Lemma damage_effect_type md : type (damage_effect md) = "damage".
Proof.
  unfold damage_effect.
  destruct (min_hits md), (max_hits md); try reflexivity.
  case_bool_decide; reflexivity.
Qed.

Theorem C2_damaging_move_primary_is_damage (md : MoveData) :
  move_name md ∉ override_names →
  damage_class md ∈ ["physical"; "special"] →
  is_Some (power md) →
  ∃ p s d, parse_effect_data md = Ok (p, s, d) ∧ type p = "damage".
Proof.
  intros Hname Hdc Hpw. rewrite (parse_general md Hname).
  eexists _, _, _. split; [ reflexivity | ].
  rewrite (primary_effect_damaging md Hdc). apply damage_effect_type.
Qed.

Lemma C2_witness :
  ∃ p s d, parse_effect_data tackle = Ok (p, s, d) ∧ type p = "damage".
Proof.
  apply (C2_damaging_move_primary_is_damage tackle).
  - by_evaluation.
  - by_evaluation.
  - exists 40. reflexivity.
Defined.

Lemma C2_counterexample :
  damage_class seismic_toss_with_power ∈ ["physical"; "special"] ∧
  is_Some (power seismic_toss_with_power) ∧
  ∃ p s d, parse_effect_data seismic_toss_with_power = Ok (p, s, d) ∧
           type p = "fixed_damage" ∧ type p ≠ "damage".
Proof.
  split; [ by_evaluation | ]. split; [ exists 1; reflexivity | ].
  eexists _, _, _. split; [ vm_compute; reflexivity | ].
  split; [ reflexivity | by_evaluation ].
Qed.

Theorem C3_triple_kick_declared_range_forced (md : MoveData) (mn mx : Z) :
  move_name md = "triple-kick" →
  damage_class md ∈ ["physical"; "special"] →
  min_hits md = Some mn → max_hits md = Some mx →
  ∃ s d, parse_effect_data md =
           Ok ({| type := "damage"; parameters := MultiHit 3 3 |}, s, d).
Proof.
  intros Hname Hdc Hmn Hmx.
  assert (move_name md ∉ override_names) as Hout.
  { rewrite Hname. by_evaluation. }
  rewrite (parse_general md Hout).
  rewrite (primary_effect_damaging md Hdc).
  unfold damage_effect. rewrite Hmn, Hmx.
  rewrite (bool_decide_eq_true_2 _ Hname).
  eexists _, _. reflexivity.
Qed.

Lemma C3_witness :
  ∃ s d, parse_effect_data (triple_kick (Some 1) (Some 5)) =
           Ok ({| type := "damage"; parameters := MultiHit 3 3 |}, s, d).
Proof.
  apply (C3_triple_kick_declared_range_forced _ 1 5).
  - reflexivity.
  - by_evaluation.
  - reflexivity.
  - reflexivity.
Defined.

Lemma C3_counterexample :
  move_name (triple_kick None None) = "triple-kick" ∧
  ∃ p s d, parse_effect_data (triple_kick None None) = Ok (p, s, d) ∧
           p = {| type := "damage"; parameters := NoParams |} ∧
           parameters p ≠ MultiHit 3 3.
Proof.
  split; [ reflexivity | ].
  eexists _, _, _. split; [ vm_compute; reflexivity | ].
  split; [ reflexivity | discriminate ].
Qed.

(** The chain of lines 246-269 for a status-class record. *)
Lemma determined_primary_status md :
  damage_class md = "status" →
  determined_primary md =
    let later_branches :=
      if nonempty (stat_changes md) && (stat_chance md =? 0)
      then
        if nonempty (recognized_changes (stat_changes md))
        then Some {| type := "stat_change";
                     parameters :=
                       ChangesParams (recognized_changes (stat_changes md))
                         (target_after "user"
                            (recognized_changes (stat_changes md))) |}
        else None
      else if healing md >? 0
      then Some {| type := "heal"; parameters := HealParams (healing md) "user" |}
      else None in
    match ailment md with
    | Some a =>
        if ailment_chance md =? 0
        then
          if bool_decide (a ∈ volatile_statuses)
          then Some {| type := "apply_volatile_status";
                       parameters := StatusParams a "target" |}
          else if bool_decide (a ∈ major_statuses)
          then Some {| type := "apply_status";
                       parameters := StatusParams a "target" |}
          else None
        else later_branches
    | None => later_branches
    end.
Proof.
  intros Hdc. unfold determined_primary.
  assert (damage_class md ∉ ["physical"; "special"]) as Hne.
  { rewrite Hdc. by_evaluation. }
  rewrite (bool_decide_eq_false_2 _ Hne), (bool_decide_eq_true_2 _ Hdc).
  rewrite truthy_ailment, stat_loop_spec. reflexivity.
Qed.

Lemma primary_effect_status md :
  damage_class md = "status" →
  primary_effect md = default unknown_status (determined_primary md).
Proof.
  intros Hdc. unfold primary_effect.
  destruct (determined_primary md); [ reflexivity | ].
  assert (damage_class md ∉ ["physical"; "special"]) as Hne.
  { rewrite Hdc. by_evaluation. }
  rewrite (bool_decide_eq_false_2 _ Hne). reflexivity.
Qed.

(** The stat-change branch, when the ailment branch is not entered. *)
Lemma primary_effect_stat_branch md :
  damage_class md = "status" →
  ailment md = None ∨ ailment_chance md ≠ 0 →
  stat_changes md ≠ [] → stat_chance md = 0 →
  primary_effect md =
    if nonempty (recognized_changes (stat_changes md))
    then {| type := "stat_change";
            parameters :=
              ChangesParams (recognized_changes (stat_changes md))
                (target_after "user" (recognized_changes (stat_changes md))) |}
    else unknown_status.
Proof.
  intros Hdc Hail Hsc Hch.
  rewrite (primary_effect_status md Hdc), (determined_primary_status md Hdc).
  rewrite (nonempty_true _ Hsc), Hch. cbv zeta.
  assert ((0 =? 0) = true) as -> by reflexivity.
  assert (true && true = true) as -> by reflexivity.
  destruct Hail as [-> | Hne].
  - destruct (nonempty _); reflexivity.
  - apply Z.eqb_neq in Hne. rewrite Hne.
    destruct (ailment md); destruct (nonempty _); reflexivity.
Qed.

(** The ailment branch, once entered, decides the primary effect alone. *)
Lemma primary_effect_ailment_branch md a :
  damage_class md = "status" →
  ailment md = Some a → ailment_chance md = 0 →
  primary_effect md =
    if bool_decide (a ∈ volatile_statuses)
    then {| type := "apply_volatile_status"; parameters := StatusParams a "target" |}
    else if bool_decide (a ∈ major_statuses)
    then {| type := "apply_status"; parameters := StatusParams a "target" |}
    else unknown_status.
Proof.
  intros Hdc Hail Hch.
  rewrite (primary_effect_status md Hdc), (determined_primary_status md Hdc).
  rewrite Hail, Hch. cbv zeta.
  assert ((0 =? 0) = true) as -> by reflexivity.
  repeat case_bool_decide; reflexivity.
Qed.

(** C4, as the code has it: for every status-class record not matching an
    override, with a non-empty stat-change list, stat chance exactly 0 and
    at least one recognized stat tag, a primary [stat_change] effect has the
    target given by the last change whose stat tag is recognized: [user] if
    that change's stage delta is not negative, [target] (the opponent) if it
    is negative, whatever the signs of the changes before it. When the
    ailment branch is not entered (no ailment, or a non-zero ailment
    chance), the primary effect is that [stat_change] effect, with the
    recognized changes in the record's order. *)
Theorem C4_stat_change_target_follows_last_change (md : MoveData) :
  move_name md ∉ override_names →
  damage_class md = "status" →
  stat_changes md ≠ [] →
  stat_chance md = 0 →
  (∃ c, c ∈ stat_changes md ∧ is_Some (map_stat_name (stat_name c))) →
  ∃ p s d c,
    parse_effect_data md = Ok (p, s, d) ∧
    list.last (recognized_changes (stat_changes md)) = Some c ∧
    (∀ chs tgt,
       p = {| type := "stat_change"; parameters := ChangesParams chs tgt |} →
       tgt = if stages c <? 0 then "target" else "user") ∧
    (ailment md = None ∨ ailment_chance md ≠ 0 →
     p = {| type := "stat_change";
            parameters :=
              ChangesParams (recognized_changes (stat_changes md))
                (if stages c <? 0 then "target" else "user") |}).
Proof.
  intros Hname Hdc Hsc Hch [c0 [Hin Hrec]].
  pose proof (recognized_changes_nonempty _ _ Hin Hrec) as Hne.
  destruct (proj2 (last_is_Some _) Hne) as [c Hc].
  assert (target_after "user" (recognized_changes (stat_changes md)) =
          if stages c <? 0 then "target" else "user") as Htgt.
  { unfold target_after. rewrite Hc. reflexivity. }
  assert (ailment md = None ∨ ailment_chance md ≠ 0 →
          primary_effect md =
            {| type := "stat_change";
               parameters :=
                 ChangesParams (recognized_changes (stat_changes md))
                   (if stages c <? 0 then "target" else "user") |}) as Hstat.
  { intros Hail.
    rewrite (primary_effect_stat_branch md Hdc Hail Hsc Hch).
    rewrite (nonempty_true _ Hne), Htgt. reflexivity. }
  rewrite (parse_general md Hname).
  eexists _, _, _, c. split; [ reflexivity | ]. split; [ exact Hc | ].
  split; [ | exact Hstat ].
  intros chs tgt Hp.
  destruct (ailment md) as [a|] eqn:Hail.
  - destruct (decide (ailment_chance md = 0)) as [Hz | Hnz].
    + rewrite (primary_effect_ailment_branch md a Hdc Hail Hz) in Hp.
      apply (f_equal type) in Hp. exfalso. revert Hp.
      repeat case_bool_decide; by_evaluation.
    + rewrite (Hstat (or_intror Hnz)) in Hp. by injection Hp.
  - rewrite (Hstat (or_introl eq_refl)) in Hp. by injection Hp.
Qed.

Lemma C4_witness :
  ∃ p s d c,
    parse_effect_data (stat_move "none" 0 raise_then_lower) = Ok (p, s, d) ∧
    list.last (recognized_changes raise_then_lower) = Some c ∧
    (∀ chs tgt,
       p = {| type := "stat_change"; parameters := ChangesParams chs tgt |} →
       tgt = if stages c <? 0 then "target" else "user") ∧
    (ailment (stat_move "none" 0 raise_then_lower) = None ∨
     ailment_chance (stat_move "none" 0 raise_then_lower) ≠ 0 →
     p = {| type := "stat_change";
            parameters :=
              ChangesParams (recognized_changes raise_then_lower)
                (if stages c <? 0 then "target" else "user") |}).
Proof.
  apply (C4_stat_change_target_follows_last_change
           (stat_move "none" 0 raise_then_lower)).
  - by_evaluation.
  - reflexivity.
  - discriminate.
  - reflexivity.
  - exists {| stat_name := "attack"; change := 1 |}.
    split; [ apply list_elem_of_here | exists "attack"; reflexivity ].
Defined.

(** C4 as stated fails when a later recognized change has the other sign:
    the loop of lines 256-261 overwrites [target] at every recognized
    change, so attack +1 followed by defense -1 ends with [target], although
    the first change is positive. *)
Lemma C4_counterexample :
  (move_name (stat_move "none" 0 raise_then_lower) ∉ override_names) ∧
  damage_class (stat_move "none" 0 raise_then_lower) = "status" ∧
  stat_chance (stat_move "none" 0 raise_then_lower) = 0 ∧
  (∃ c rest, stat_changes (stat_move "none" 0 raise_then_lower) = c :: rest ∧
             is_Some (map_stat_name (stat_name c)) ∧ 0 < change c) ∧
  ∃ chs s d,
    parse_effect_data (stat_move "none" 0 raise_then_lower) =
      Ok ({| type := "stat_change"; parameters := ChangesParams chs "target" |},
          s, d) ∧
    "target" ≠ "user".
Proof.
  split; [ by_evaluation | ]. split; [ reflexivity | ]. split; [ reflexivity | ].
  split.
  - eexists _, _. split; [ reflexivity | ].
    split; [ exists "attack"; reflexivity | reflexivity ].
  - eexists _, _, _. split; [ vm_compute; reflexivity | by_evaluation ].
Qed.

(** C9: for every status-class record not matching an override whose
    ailment is present with chance exactly 0 and whose canonical ailment tag
    is in neither the major-status list nor the volatile list of the code,
    the primary effect is the [unknown_status] sentinel, whatever the
    record's stat changes, stat chance and healing percent: the entered
    ailment branch shadows the later branches of the chain. *)
Theorem C9_unclassified_ailment_shadows_later_branches (md : MoveData) (a : string) :
  move_name md ∉ override_names →
  damage_class md = "status" →
  ailment md = Some a →
  ailment_chance md = 0 →
  a ∉ major_statuses →
  a ∉ volatile_statuses →
  ∃ s d, parse_effect_data md = Ok (unknown_status, s, d).
Proof.
  intros Hname Hdc Hail Hch Hmaj Hvol.
  rewrite (parse_general md Hname).
  rewrite (primary_effect_ailment_branch md a Hdc Hail Hch).
  rewrite (bool_decide_eq_false_2 _ Hvol), (bool_decide_eq_false_2 _ Hmaj).
  eexists _, _. reflexivity.
Qed.

(** The ailment tag silence, with a certain attack raise and a healing
    percent of 50 in the same record. *)
Lemma C9_witness :
  ∃ s d,
    parse_effect_data
      (stat_move "silence" 50 [{| stat_name := "attack"; change := 1 |}]) =
    Ok (unknown_status, s, d).
Proof.
  apply (C9_unclassified_ailment_shadows_later_branches _ "silence").
  - by_evaluation.
  - reflexivity.
  - reflexivity.
  - reflexivity.
  - by_evaluation.
  - by_evaluation.
Defined.

(** C10: for every status-class record not matching an override, with no
    deterministic ailment (no ailment, or a non-zero ailment chance), a
    non-empty stat-change list, stat chance exactly 0 and no stat tag
    recognized by the normalizer, the primary effect is the
    [unknown_status] sentinel, whatever the healing percent: the
    stat-change branch was entered and built an empty list, so the healing
    branch is not reached. *)
Theorem C10_unrecognized_stats_shadow_healing (md : MoveData) :
  move_name md ∉ override_names →
  damage_class md = "status" →
  ailment md = None ∨ ailment_chance md ≠ 0 →
  stat_changes md ≠ [] →
  stat_chance md = 0 →
  (∀ c, c ∈ stat_changes md → map_stat_name (stat_name c) = None) →
  ∃ s d, parse_effect_data md = Ok (unknown_status, s, d).
Proof.
  intros Hname Hdc Hail Hsc Hch Hnone.
  rewrite (parse_general md Hname).
  rewrite (primary_effect_stat_branch md Hdc Hail Hsc Hch).
  rewrite (recognized_changes_none _ Hnone).
  eexists _, _. reflexivity.
Qed.

(** A stat tag the normalizer does not know, with a healing percent of 50. *)
Lemma C10_witness :
  ∃ s d,
    parse_effect_data
      (stat_move "none" 50 [{| stat_name := "special"; change := 1 |}]) =
    Ok (unknown_status, s, d).
Proof.
  apply (C10_unrecognized_stats_shadow_healing
           (stat_move "none" 50 [{| stat_name := "special"; change := 1 |}])).
  - by_evaluation.
  - reflexivity.
  - left. reflexivity.
  - discriminate.
  - reflexivity.
  - intros c Hc. apply list_elem_of_singleton in Hc. rewrite Hc. reflexivity.
Defined.

(* ===================================================================== *)
(** ** The secondary effect                                              *)
(* ===================================================================== *)

(** Every candidate carries one of the three chances of the meta block, and
    only a positive one. *)
Lemma secondary_candidates_chance md c :
  c ∈ secondary_candidates md →
  0 < chance c ∧
  (chance c = ailment_chance md ∨ chance c = stat_chance md ∨
   chance c = flinch_chance md).
Proof.
  unfold secondary_candidates. rewrite stat_loop_spec. cbv zeta.
  destruct (ailment_chance md >? 0) eqn:Ha;
    destruct (stat_chance md >? 0) eqn:Hs;
    destruct (flinch_chance md >? 0) eqn:Hf;
    rewrite ?andb_false_r, ?andb_true_r;
    try apply Z.gtb_lt in Ha; try apply Z.gtb_lt in Hs;
    try apply Z.gtb_lt in Hf;
    destruct (truthy (ailment md)) as [a|];
    try destruct (truthy (status_type a)) as [ty|];
    destruct (nonempty (stat_changes md));
    try destruct (nonempty (recognized_changes (stat_changes md)));
    intros H;
    repeat (apply elem_of_app in H as [H | H]);
    try (by apply elem_of_nil in H);
    apply list_elem_of_singleton in H; subst c; cbn [chance];
    (split; [ assumption | tauto ]).
Qed.

(** With no chance in the meta block the candidate list is empty. *)
Lemma secondary_candidates_no_chance md :
  ailment_chance md = 0 → stat_chance md = 0 → flinch_chance md = 0 →
  secondary_candidates md = [].
Proof.
  intros Ha Hs Hf. unfold secondary_candidates.
  rewrite Ha, Hs, Hf. cbv zeta.
  assert ((0 >? 0) = false) as -> by reflexivity.
  rewrite andb_false_r.
  destruct (truthy (ailment md)); reflexivity.
Qed.

(** A candidate list that starts with [c] settles the secondary effect. *)
Lemma final_secondary_first md desc c rest :
  secondary_candidates md = c :: rest → final_secondary md desc = Some c.
Proof.
  intros H. unfold final_secondary, structured_secondary. rewrite H.
  reflexivity.
Qed.

(** The list built when only the stat and flinch chances are positive. *)
Lemma secondary_candidates_stat_then_flinch md :
  ailment_chance md = 0 → 0 < stat_chance md → 0 < flinch_chance md →
  recognized_changes (stat_changes md) ≠ [] →
  secondary_candidates md =
    [ {| chance := stat_chance md;
         effect :=
           {| type := "stat_change";
              parameters :=
                ChangesParams (recognized_changes (stat_changes md))
                  (target_after "target" (recognized_changes (stat_changes md))) |} |};
      {| chance := flinch_chance md;
         effect := status_on_target "apply_volatile_status" "flinch" |} ].
Proof.
  intros Ha Hs Hf Hne. unfold secondary_candidates.
  rewrite stat_loop_spec, Ha. cbv zeta.
  assert ((0 >? 0) = false) as -> by reflexivity.
  rewrite (proj2 (Z.gtb_lt _ _) Hs), (proj2 (Z.gtb_lt _ _) Hf).
  rewrite (nonempty_true _ Hne).
  assert (nonempty (stat_changes md) = true) as ->.
  { destruct (stat_changes md); [ | reflexivity ].
    exfalso. apply Hne. reflexivity. }
  destruct (truthy (ailment md)); reflexivity.
Qed.

(** C1, as the code has it: for every raw move record not matching an
    override, with ailment chance, stat chance and flinch chance all 0, a
    generic effect chance of 10, and whose English description, put in
    lower case, contains the substring "paralyze", [parse_effect_data]
    returns a secondary effect with probability 10 whose effect is
    [apply_status] of paralysis on the opponent target. *)
Theorem C1_paralyze_text_infers_paralysis (md : MoveData) :
  move_name md ∉ override_names →
  ailment_chance md = 0 → stat_chance md = 0 → flinch_chance md = 0 →
  effect_chance md = Some 10 →
  contains "paralyze" (lower (get_english_effect (effect_entries md))) = true →
  ∃ p d,
    parse_effect_data md =
      Ok (p,
          Some {| chance := 10;
                  effect := {| type := "apply_status";
                               parameters := StatusParams "paralysis" "target" |} |},
          d).
Proof.
  intros Hname Ha Hs Hf Hec Htext.
  rewrite (parse_general md Hname).
  assert (final_secondary md (get_english_effect (effect_entries md)) =
          Some {| chance := 10;
                  effect := status_on_target "apply_status" "paralysis" |}) as ->.
  { unfold final_secondary, structured_secondary.
    rewrite (secondary_candidates_no_chance md Ha Hs Hf), Hec.
    unfold inferred_secondary. rewrite Htext. reflexivity. }
  eexists _, _. reflexivity.
Qed.

Lemma C1_witness :
  ∃ p d,
    parse_effect_data paralyze_text_move =
      Ok (p,
          Some {| chance := 10;
                  effect := {| type := "apply_status";
                               parameters := StatusParams "paralysis" "target" |} |},
          d).
Proof.
  apply (C1_paralyze_text_infers_paralysis paralyze_text_move).
  - by_evaluation.
  - reflexivity.
  - reflexivity.
  - reflexivity.
  - reflexivity.
  - vm_compute. reflexivity.
Defined.

(** C1 as stated fails: line 332 looks for "paralyze", which the text
    "may cause paralysis" does not contain, and no later pattern of the
    chain matches it either, so no secondary effect is inferred. *)
Lemma C1_counterexample :
  ailment_chance paralysis_text_move = 0 ∧
  stat_chance paralysis_text_move = 0 ∧
  flinch_chance paralysis_text_move = 0 ∧
  effect_chance paralysis_text_move = Some 10 ∧
  contains "may cause paralysis"
    (get_english_effect (effect_entries paralysis_text_move)) = true ∧
  ∃ p d, parse_effect_data paralysis_text_move = Ok (p, None, d).
Proof.
  repeat (split; [ vm_compute; reflexivity | ]).
  eexists _, _. vm_compute. reflexivity.
Qed.

Lemma gtb_bool_decide (x : Z) : (x >? 0) = bool_decide (0 < x).
Proof.
  rewrite Z.gtb_ltb. destruct (Z.ltb_spec 0 x) as [H | H].
  - by rewrite bool_decide_eq_true_2.
  - rewrite bool_decide_eq_false_2; [ done | lia ].
Qed.

Lemma recognized_changes_nil_of_empty (l : list StatChange) :
  nonempty l = false → nonempty (recognized_changes l) = false.
Proof. by destruct l. Qed.

(** The list the code builds is the three candidates of the
    specification, in its order. *)
Lemma secondary_candidates_in_priority_order md :
  secondary_candidates md =
    ailment_candidate md ++ stat_candidate md ++ flinch_candidate md.
Proof.
  unfold secondary_candidates, ailment_candidate, stat_candidate,
    flinch_candidate, status_type, status_on_target.
  rewrite stat_loop_spec, truthy_ailment, !gtb_bool_decide. cbv zeta.
  destruct (ailment md) as [a|];
    destruct (bool_decide (0 < ailment_chance md));
    destruct (bool_decide (0 < stat_chance md));
    destruct (bool_decide (0 < flinch_chance md));
    destruct (nonempty (stat_changes md)) eqn:Hsc;
    try rewrite (recognized_changes_nil_of_empty _ Hsc);
    try destruct (nonempty (recognized_changes (stat_changes md)));
    repeat case_bool_decide;
    reflexivity.
Qed.

(** C7: for every record not matching an override, the candidate list is
    built in the fixed priority ailment chance > 0, then stat chance > 0,
    then flinch chance > 0 (an ailment candidate, when there is one, comes
    first; a stat_change candidate comes before a flinch candidate), and
    when the list has more than one element the secondary effect returned
    is its first element and the others are dropped. So a classified
    ailment with a positive chance is retained whatever the stat and flinch
    chances; with ailment chance 0, a positive stat chance with a
    recognized stat and a positive flinch chance, the list is the
    stat_change candidate followed by the flinch candidate and the
    stat_change candidate is retained; and the flinch candidate is retained
    only when there is neither an ailment nor a stat_change candidate. *)
Theorem C7_first_candidate_is_retained (md : MoveData) :
  move_name md ∉ override_names →
  secondary_candidates md =
    ailment_candidate md ++ stat_candidate md ++ flinch_candidate md ∧
  ((1 < length (secondary_candidates md))%nat →
   ∃ c rest p d,
     secondary_candidates md = c :: rest ∧ rest ≠ [] ∧
     parse_effect_data md = Ok (p, Some c, d)) ∧
  (∀ a,
     ailment md = Some a → 0 < ailment_chance md →
     a ∈ major_statuses ∨ a ∈ volatile_statuses →
     ∃ rest p d,
       secondary_candidates md =
         {| chance := ailment_chance md;
            effect :=
              {| type := if bool_decide (a ∈ major_statuses)
                         then "apply_status" else "apply_volatile_status";
                 parameters := StatusParams a "target" |} |} :: rest ∧
       rest = stat_candidate md ++ flinch_candidate md ∧
       parse_effect_data md =
         Ok (p,
             Some {| chance := ailment_chance md;
                     effect :=
                       {| type := if bool_decide (a ∈ major_statuses)
                                  then "apply_status"
                                  else "apply_volatile_status";
                          parameters := StatusParams a "target" |} |},
             d)) ∧
  (ailment_chance md = 0 → 0 < stat_chance md → 0 < flinch_chance md →
   recognized_changes (stat_changes md) ≠ [] →
   ∃ c flinch p d,
     secondary_candidates md = [c; flinch] ∧
     c = {| chance := stat_chance md;
            effect :=
              {| type := "stat_change";
                 parameters :=
                   ChangesParams (recognized_changes (stat_changes md))
                     (target_after "target"
                        (recognized_changes (stat_changes md))) |} |} ∧
     flinch = {| chance := flinch_chance md;
                 effect := {| type := "apply_volatile_status";
                              parameters := StatusParams "flinch" "target" |} |} ∧
     parse_effect_data md = Ok (p, Some c, d)) ∧
  (ailment_candidate md = [] → stat_candidate md = [] →
   0 < flinch_chance md →
   ∃ p d,
     parse_effect_data md =
       Ok (p,
           Some {| chance := flinch_chance md;
                   effect := {| type := "apply_volatile_status";
                                parameters := StatusParams "flinch" "target" |} |},
           d)).
Proof.
  intros Hname. rewrite (parse_general md Hname).
  split; [ apply secondary_candidates_in_priority_order | ].
  split; [ | split; [ | split ] ].
  - intros Hlen.
    destruct (secondary_candidates md) as [ | c [ | c' rest ] ] eqn:Hc;
      [ cbn in Hlen; lia | cbn in Hlen; lia | ].
    exists c, (c' :: rest). eexists _, _.
    split; [ reflexivity | ]. split; [ discriminate | ].
    rewrite (final_secondary_first md _ c (c' :: rest) Hc). reflexivity.
  - intros a Hail Hpos Hclass.
    assert (ailment_candidate md =
            [ {| chance := ailment_chance md;
                 effect :=
                   {| type := if bool_decide (a ∈ major_statuses)
                              then "apply_status" else "apply_volatile_status";
                      parameters := StatusParams a "target" |} |} ]) as Hcand.
    { unfold ailment_candidate, status_on_target.
      rewrite Hail, (bool_decide_eq_true_2 _ Hpos).
      case_bool_decide as Hmaj; [ reflexivity | ].
      destruct Hclass as [ Hm | Hv ]; [ done | ].
      by rewrite (bool_decide_eq_true_2 _ Hv). }
    pose proof (secondary_candidates_in_priority_order md) as Hc.
    rewrite Hcand in Hc. cbn [app] in Hc.
    eexists _, _, _. split; [ exact Hc | ]. split; [ reflexivity | ].
    rewrite (final_secondary_first md _ _ _ Hc). reflexivity.
  - intros Ha Hs Hf Hne.
    pose proof (secondary_candidates_stat_then_flinch md Ha Hs Hf Hne) as Hc.
    eexists _, _, _, _. split; [ exact Hc | ].
    split; [ reflexivity | ]. split; [ reflexivity | ].
    rewrite (final_secondary_first md _ _ _ Hc). reflexivity.
  - intros Hnoail Hnostat Hf.
    pose proof (secondary_candidates_in_priority_order md) as Hc.
    rewrite Hnoail, Hnostat in Hc. unfold flinch_candidate in Hc.
    rewrite (bool_decide_eq_true_2 _ Hf) in Hc. cbn [app] in Hc.
    eexists _, _. rewrite (final_secondary_first md _ _ _ Hc). reflexivity.
Qed.

(** A burn chance of 10 with a stat chance of 20 and a flinch chance of 30:
    the burn is retained. *)
Lemma C7_witness :
  (∃ c rest p d,
     secondary_candidates burn_drop_flinch_move = c :: rest ∧ rest ≠ [] ∧
     parse_effect_data burn_drop_flinch_move = Ok (p, Some c, d)) ∧
  ∃ rest p d,
    secondary_candidates burn_drop_flinch_move =
      {| chance := 10;
         effect := {| type := "apply_status";
                      parameters := StatusParams "burn" "target" |} |} :: rest ∧
    rest = stat_candidate burn_drop_flinch_move ++
           flinch_candidate burn_drop_flinch_move ∧
    parse_effect_data burn_drop_flinch_move =
      Ok (p,
          Some {| chance := 10;
                  effect := {| type := "apply_status";
                               parameters := StatusParams "burn" "target" |} |},
          d).
Proof.
  assert (move_name burn_drop_flinch_move ∉ override_names) as Hname
    by by_evaluation.
  split.
  - apply (proj1 (proj2 (C7_first_candidate_is_retained
                           burn_drop_flinch_move Hname))).
    vm_compute. lia.
  - apply (proj1 (proj2 (proj2 (C7_first_candidate_is_retained
                                  burn_drop_flinch_move Hname))) "burn").
    + reflexivity.
    + reflexivity.
    + left. by_evaluation.
Defined.

(* ===================================================================== *)
(** ** Overrides, placeholder and targets                                *)
(* ===================================================================== *)

(** C5: for every raw move record whose name matches an entry of the
    override table, [parse_effect_data] returns exactly the entry's primary
    effect, no secondary effect, and the description with its chance
    placeholder replaced by the literal 0; the result is the same for every
    record with that name and those description entries, whatever its
    damage class, power, effect chance, meta block and stat changes. *)
Theorem C5_override_is_exclusive (md : MoveData) (e : Effect) :
  (move_name md, e) ∈ spec_override_table →
  parse_effect_data md =
    Ok (e, None,
        replace "{effect_chance}" "0" (get_english_effect (effect_entries md))) ∧
  ∀ md' : MoveData,
    move_name md' = move_name md →
    effect_entries md' = effect_entries md →
    parse_effect_data md' = parse_effect_data md.
Proof.
  intros Hin. split; [ by apply parse_override | ].
  intros md' Hname Hentries.
  rewrite (parse_override md e Hin).
  rewrite <- Hname in Hin. rewrite (parse_override md' e Hin).
  rewrite Hentries. reflexivity.
Qed.

Lemma C5_witness :
  parse_effect_data toxic_with_chance =
    Ok ({| type := "apply_status"; parameters := StatusParams "toxic" "target" |},
        None, "Has a 0% chance to badly poison the target.").
Proof.
  refine (proj1 (C5_override_is_exclusive toxic_with_chance
                   {| type := "apply_status";
                      parameters := StatusParams "toxic" "target" |} _)).
  unfold spec_override_table.
  repeat first [ apply list_elem_of_here | apply list_elem_of_further ].
Defined.

(** C6, as the code has it: for every record whose ailment chance, stat
    chance, flinch chance and generic effect chance all lie in [0,100],
    [parse_effect_data] returns; a secondary effect, if present, has a
    probability strictly greater than 0 and at most 100; if none is present
    and the record matches no override, the chance placeholder of the
    description is replaced by the record's generic effect chance when that
    is defined and by the literal 0 otherwise; and for a record that matches
    an override no secondary effect is present and the placeholder is
    replaced by the literal 0, whatever the generic effect chance. *)
Theorem C6_probability_range_and_placeholder (md : MoveData) :
  chances_in_range md →
  ∃ p s d,
    parse_effect_data md = Ok (p, s, d) ∧
    (∀ sec, s = Some sec → 0 < chance sec <= 100) ∧
    (s = None → move_name md ∉ override_names →
     d = replace "{effect_chance}"
           (match effect_chance md with Some ec => str ec | None => "0" end)
           (get_english_effect (effect_entries md))) ∧
    (move_name md ∈ override_names →
     s = None ∧
     d = replace "{effect_chance}" "0" (get_english_effect (effect_entries md))).
Proof.
  intros (Ha & Hs & Hf & Hec). unfold percent in *.
  destruct (override_cases (move_name md)) as [[_ Hout] | [e [Hin _]]].
  - rewrite (parse_general md Hout). eexists _, _, _.
    split; [ reflexivity | ]. split; [ | split ].
    + intros sec. unfold final_secondary, structured_secondary.
      destruct (secondary_candidates md) as [ | c rest ] eqn:Hc.
      * destruct (effect_chance md) as [ec|]; [ | discriminate ].
        destruct (ec >? 0) eqn:Hpos; [ | discriminate ].
        destruct (inferred_secondary _); [ | discriminate ].
        intros [= <-]. cbn [chance]. apply Z.gtb_lt in Hpos.
        specialize (Hec ec eq_refl). lia.
      * intros [= <-].
        destruct (secondary_candidates_chance md c) as [Hpos Hsrc].
        { rewrite Hc. apply list_elem_of_here. }
        lia.
    + intros -> _. reflexivity.
    + intros Hin. contradiction.
  - rewrite (parse_override md e Hin). eexists _, _, _.
    split; [ reflexivity | ]. split; [ | split ].
    + intros sec [=].
    + intros _ Hout. exfalso. apply Hout.
      unfold override_names. apply list_elem_of_fmap.
      exists (move_name md, e). split; [ reflexivity | exact Hin ].
    + intros _. split; reflexivity.
Qed.

Lemma C6_witness :
  ∃ p s d,
    parse_effect_data stat_and_flinch_move = Ok (p, s, d) ∧
    (∀ sec, s = Some sec → 0 < chance sec <= 100) ∧
    (s = None → move_name stat_and_flinch_move ∉ override_names →
     d = replace "{effect_chance}"
           (match effect_chance stat_and_flinch_move with
            | Some ec => str ec
            | None => "0"
            end)
           (get_english_effect (effect_entries stat_and_flinch_move))) ∧
    (move_name stat_and_flinch_move ∈ override_names →
     s = None ∧
     d = replace "{effect_chance}" "0"
           (get_english_effect (effect_entries stat_and_flinch_move))).
Proof.
  apply (C6_probability_range_and_placeholder stat_and_flinch_move).
  unfold chances_in_range, percent.
  split; [ vm_compute; intuition discriminate | ].
  split; [ vm_compute; intuition discriminate | ].
  split; [ vm_compute; intuition discriminate | ].
  intros ec [= <-]. vm_compute. intuition discriminate.
Defined.

(** C6 as stated fails on a record that matches an override and carries a
    generic effect chance: toxic with effect chance 10 returns at line 190
    with no secondary effect and the placeholder replaced by 0, not by 10. *)
Lemma C6_counterexample :
  chances_in_range toxic_with_chance ∧
  effect_chance toxic_with_chance = Some 10 ∧
  ∃ p d,
    parse_effect_data toxic_with_chance = Ok (p, None, d) ∧
    d = "Has a 0% chance to badly poison the target." ∧
    d ≠ replace "{effect_chance}" (str 10)
          (get_english_effect (effect_entries toxic_with_chance)).
Proof.
  split.
  { unfold chances_in_range, percent.
    repeat (split; [ vm_compute; intuition discriminate | ]).
    intros ec [= <-]. vm_compute. intuition discriminate. }
  split; [ reflexivity | ].
  eexists _, _. split; [ vm_compute; reflexivity | ].
  split; [ reflexivity | by_evaluation ].
Qed.

(** C8: a raw target tag that is not a key of the target table, such as
    "bizarre-tag", is mapped to [normal_opponent]; and [map_target] gives a
    canonical target for every tag. *)
Theorem C8_unknown_target_defaults_to_normal_opponent :
  (∀ tag : string,
     target_map !! tag = None → map_target tag = "normal_opponent") ∧
  map_target "bizarre-tag" = "normal_opponent" ∧
  (∀ tag : string, map_target tag ∈ canonical_targets).
Proof.
  split; [ | split ].
  - intros tag H. unfold map_target. rewrite H. reflexivity.
  - reflexivity.
  - intros tag. unfold map_target.
    destruct (target_map !! tag) as [v|] eqn:E.
    + apply (target_map_canonical tag v E).
    + by_evaluation.
Qed.

Lemma C8_witness :
  target_map !! "bizarre-tag" = None ∧
  map_target "bizarre-tag" = "normal_opponent".
Proof.
  split; [ reflexivity | ].
  apply (proj1 C8_unknown_target_defaults_to_normal_opponent "bizarre-tag").
  reflexivity.
Defined.
(* ===================================================================== *)
(** ** Text: [replace], [in] and [str]                                   *)
(* ===================================================================== *)

Lemma prefix_cons_inv c u s :
  String.prefix (String c u) s = true →
  ∃ s', s = String c s' ∧ String.prefix u s' = true.
Proof.
  destruct s as [ | c' s' ]; cbn [String.prefix]; [ discriminate | ].
  destruct (ascii_dec c c') as [ -> | ]; [ | discriminate ].
  intros H. by exists s'.
Qed.

Lemma prefix_cons_same c u s :
  String.prefix (String c u) (String c s) = String.prefix u s.
Proof. cbn [String.prefix]. destruct (ascii_dec c c); [ done | congruence ]. Qed.

Lemma prefix_cons_diff c c' u s :
  c ≠ c' → String.prefix (String c u) (String c' s) = false.
Proof. intros H. cbn [String.prefix]. by destruct (ascii_dec c c'). Qed.

Lemma append_cons c s r : (String c s ++ r)%string = String c (s ++ r)%string.
Proof. reflexivity. Qed.

Lemma contains_cons sub c s :
  contains sub (String c s) = String.prefix sub (String c s) || contains sub s.
Proof. reflexivity. Qed.

(** A text without the pattern is left as it is. *)
Lemma replace_from_absent old new s :
  contains old s = false → replace_from old new 0 s = s.
Proof.
  induction s as [ | c s IH ]; [ done | ].
  rewrite contains_cons. intros H. apply orb_false_iff in H as [Hp Hc].
  cbn [replace_from]. rewrite Hp. f_equal. by apply IH.
Qed.

(** If the replaced text starts with [u], and no character of [u] occurs in
    the non-empty [new], then the text itself started with [u]. *)
Lemma prefix_replace_from old new u s :
  new ≠ "" → (∀ c, c ∈ chars u → c ∉ chars new) →
  String.prefix u (replace_from old new 0 s) = true →
  String.prefix u s = true.
Proof.
  intros Hnew. revert u. induction s as [ | c s IH ]; intros u Hu; [ done | ].
  destruct u as [ | c0 u ]; [ done | ].
  cbn [replace_from]. destruct (String.prefix old (String c s)).
  - destruct new as [ | n0 new' ]; [ done | ].
    rewrite append_cons. intros H. apply prefix_cons_inv in H as (s' & Heq & _).
    injection Heq as Hc _. exfalso.
    apply (Hu c0); cbn [chars]; [ | rewrite Hc ]; apply list_elem_of_here.
  - intros H. apply prefix_cons_inv in H as (s' & [= <- <-] & H).
    rewrite prefix_cons_same. apply IH; [ | done ].
    intros c' Hc'. apply Hu. cbn [chars]. by apply list_elem_of_further.
Qed.

(** An occurrence in [new ++ r] lies in [r] when [new] has no character of
    the pattern. *)
Lemma contains_app_new old new r :
  old ≠ "" → (∀ c, c ∈ chars old → c ∉ chars new) →
  contains old (new ++ r)%string = contains old r.
Proof.
  intros Hold Hdis. induction new as [ | n0 new IH ]; [ done | ].
  rewrite append_cons, contains_cons.
  destruct old as [ | c0 old' ]; [ done | ].
  rewrite prefix_cons_diff.
  - apply IH. intros c Hc Hin. apply (Hdis c Hc).
    cbn [chars]. by apply list_elem_of_further.
  - intros ->. apply (Hdis n0); cbn [chars]; apply list_elem_of_here.
Qed.

(** After the replacement no occurrence of the pattern is left, when the
    pattern and the non-empty replacement share no character. *)
Lemma contains_replace_from old new skip s :
  old ≠ "" → new ≠ "" → (∀ c, c ∈ chars old → c ∉ chars new) →
  contains old (replace_from old new skip s) = false.
Proof.
  intros Hold Hnew Hdis. revert skip.
  induction s as [ | c s IH ]; intros skip.
  - destruct old; [ done | reflexivity ].
  - cbn [replace_from]. destruct skip as [ | k ]; [ | apply IH ].
    destruct (String.prefix old (String c s)) eqn:Hp.
    + rewrite contains_app_new by done. apply IH.
    + rewrite contains_cons, IH, orb_false_r.
      destruct (String.prefix old (String c (replace_from old new 0 s))) eqn:Hq;
        [ exfalso | reflexivity ].
      destruct old as [ | c0 old' ]; [ done | ].
      apply prefix_cons_inv in Hq as (s' & Heq & Hq).
      injection Heq as Hc Hs. subst c s'.
      apply prefix_replace_from in Hq; [ | done | ].
      * rewrite prefix_cons_same, Hq in Hp. discriminate.
      * intros c' Hc'. apply Hdis. cbn [chars]. by apply list_elem_of_further.
Qed.

(** [str] writes a sign and decimal digits, and at least one character. *)
Lemma string_of_uint_chars d c :
  c ∈ chars (NilEmpty.string_of_uint d) → c ∈ chars "0123456789".
Proof.
  induction d as [ | d IH | d IH | d IH | d IH | d IH | d IH | d IH | d IH
                   | d IH | d IH ];
    cbn [NilEmpty.string_of_uint chars]; intros H;
    [ by apply elem_of_nil in H | .. ];
    (apply elem_of_cons in H as [ -> | H ]; [ by_evaluation | by apply IH ]).
Qed.

Lemma str_chars n c : c ∈ chars (str n) → c ∈ chars "-0123456789".
Proof.
  unfold str, NilZero.string_of_int, NilZero.string_of_uint.
  assert (∀ d, c ∈ chars match d with
                         | Decimal.Nil => "0"
                         | _ => NilEmpty.string_of_uint d
                         end → c ∈ chars "-0123456789") as Hu.
  { intros d H. apply list_elem_of_further.
    destruct d; cbv beta iota in H;
      try (by eapply string_of_uint_chars; exact H).
    cbn [chars] in H. apply list_elem_of_singleton in H as ->. by_evaluation. }
  destruct (Z.to_int n) as [d | d]; [ apply (Hu d) | ].
  cbn [chars]. intros H.
  apply elem_of_cons in H as [ -> | H ]; [ by_evaluation | by apply (Hu d) ].
Qed.

Lemma str_nonempty n : str n ≠ "".
Proof.
  unfold str, NilZero.string_of_int, NilZero.string_of_uint.
  destruct (Z.to_int n) as [d | d]; [ | discriminate ].
  destruct d; discriminate.
Qed.

(** Distinct integers are written differently. *)
Lemma str_inj a b : str a = str b → a = b.
Proof.
  unfold str. intros H.
  assert (∀ z, Z.to_int z ≠ Decimal.Pos Decimal.Nil ∧
               Z.to_int z ≠ Decimal.Neg Decimal.Nil) as Hnn.
  { intros [ | p | p ]; cbn [Z.to_int]; split; try discriminate;
      intros [= E]; by apply DecimalPos.Unsigned.to_uint_nonnil in E. }
  apply (f_equal NilZero.int_of_string) in H.
  rewrite !NilZero.isi in H by apply Hnn.
  injection H as H. apply (f_equal Z.of_int) in H.
  by rewrite !DecimalZ.of_to in H.
Qed.

(** The placeholder shares no character with what [str] writes. *)
Lemma placeholder_chars_not_in_str n c :
  c ∈ chars "{effect_chance}" → c ∉ chars (str n).
Proof.
  intros Hc Hn. apply str_chars in Hn.
  assert (Forall (λ c, c ∉ chars "-0123456789") (chars "{effect_chance}"))
    as HF by by_evaluation.
  rewrite Forall_forall in HF. exact (HF c Hc Hn).
Qed.

(** The text put in place of the placeholder is always a number. *)
Lemma display_chance_is_str s ec : ∃ n, display_chance s ec = str n.
Proof.
  unfold display_chance. destruct s as [sec|]; [ by eexists | ].
  destruct ec as [n|]; [ by eexists | ]. by exists 0.
Qed.

Lemma placeholder_resolved new s :
  (∃ n, new = str n) →
  contains "{effect_chance}" (replace "{effect_chance}" new s) = false.
Proof.
  intros [n ->]. apply contains_replace_from.
  - discriminate.
  - apply str_nonempty.
  - apply placeholder_chars_not_in_str.
Qed.

(* ===================================================================== *)
(** ** The description                                                   *)
(* ===================================================================== *)

(** The description is taken from the first English entry. *)
Lemma get_english_effect_first pre e post :
  Forall (λ x, entry_language x ≠ "en") pre →
  entry_language e = "en" →
  get_english_effect (pre ++ e :: post) =
    replace "$effect_chance" "{effect_chance}" (entry_effect e).
Proof.
  intros Hpre He. induction Hpre as [ | x pre Hx _ IH ]; cbn [app get_english_effect].
  - by rewrite (proj2 (String.eqb_eq _ _) He).
  - by rewrite (proj2 (String.eqb_neq _ _) Hx).
Qed.

Lemma get_english_effect_none entries :
  Forall (λ x, entry_language x ≠ "en") entries →
  get_english_effect entries = "No English description found.".
Proof.
  intros H. induction H as [ | x l Hx _ IH ]; cbn [get_english_effect]; [ done | ].
  by rewrite (proj2 (String.eqb_neq _ _) Hx).
Qed.

(** The description returned, in both paths. *)
Lemma parse_description md :
  ∃ p s new,
    (∃ n, new = str n) ∧
    parse_effect_data md =
      Ok (p, s, replace "{effect_chance}" new
                  (get_english_effect (effect_entries md))).
Proof.
  destruct (override_cases (move_name md)) as [[_ Hout] | [e [Hin _]]].
  - rewrite (parse_general md Hout). eexists _, _, _.
    split; [ apply display_chance_is_str | reflexivity ].
  - rewrite (parse_override md e Hin). eexists _, _, _.
    split; [ by exists 0 | reflexivity ].
Qed.

(** X1: for every record, [parse_effect_data] returns a description in which
    no occurrence of the placeholder [{effect_chance}] is left, whatever the
    description entries say and whichever path (override or general) was
    taken. *)
Theorem description_has_no_placeholder_left (md : MoveData) :
  ∃ p s d,
    parse_effect_data md = Ok (p, s, d) ∧
    contains "{effect_chance}" d = false.
Proof.
  destruct (parse_description md) as (p & s & new & Hnew & ->).
  eexists _, _, _. split; [ reflexivity | ].
  by apply placeholder_resolved.
Qed.

(** X2: when the first English entry of a record has a text with neither
    [$effect_chance] nor [{effect_chance}] in it, that text is returned as
    the description unchanged, whatever the rest of the record. *)
Theorem description_without_placeholder_is_verbatim
    (md : MoveData) (pre post : list EffectEntry) (e : EffectEntry) :
  effect_entries md = pre ++ e :: post →
  Forall (λ x, entry_language x ≠ "en") pre →
  entry_language e = "en" →
  contains "$effect_chance" (entry_effect e) = false →
  contains "{effect_chance}" (entry_effect e) = false →
  ∃ p s, parse_effect_data md = Ok (p, s, entry_effect e).
Proof.
  intros Hentries Hpre He Hdollar Hbrace.
  destruct (parse_description md) as (p & s & new & _ & ->).
  exists p, s. do 2 f_equal.
  rewrite Hentries, (get_english_effect_first pre e post Hpre He).
  unfold replace. rewrite (replace_from_absent _ _ _ Hdollar).
  by apply replace_from_absent.
Qed.

Lemma description_without_placeholder_is_verbatim_witness :
  ∃ p s, parse_effect_data tackle = Ok (p, s, "Inflicts regular damage.").
Proof.
  apply (description_without_placeholder_is_verbatim tackle [] []
           {| entry_language := "en";
              entry_effect := "Inflicts regular damage." |}).
  - reflexivity.
  - apply Forall_nil_2.
  - reflexivity.
  - vm_compute. reflexivity.
  - vm_compute. reflexivity.
Defined.

(** X3: a record none of whose description entries is English gets the
    fixed text "No English description found." as its description, and the
    scan of that text infers no secondary effect: without a candidate from
    the meta block the secondary effect is absent. *)
Theorem no_english_entry_gives_fixed_description (md : MoveData) :
  Forall (λ x, entry_language x ≠ "en") (effect_entries md) →
  ∃ p s,
    parse_effect_data md = Ok (p, s, "No English description found.") ∧
    (secondary_candidates md = [] → s = None).
Proof.
  intros Hnone.
  pose proof (get_english_effect_none _ Hnone) as Hdesc.
  assert (∀ new, replace "{effect_chance}" new "No English description found."
                 = "No English description found.") as Hfix.
  { intros new. apply replace_from_absent. vm_compute. reflexivity. }
  destruct (override_cases (move_name md)) as [[_ Hout] | [e [Hin _]]].
  - rewrite (parse_general md Hout), Hdesc, Hfix.
    eexists _, _. split; [ reflexivity | ].
    + intros Hc. unfold final_secondary, structured_secondary. rewrite Hc.
      destruct (effect_chance md) as [ec|]; [ | reflexivity ].
      destruct (ec >? 0); reflexivity.
  - rewrite (parse_override md e Hin), Hdesc, Hfix.
    eexists _, _. split; reflexivity.
Qed.

Lemma no_english_entry_gives_fixed_description_witness :
  ∃ p s,
    parse_effect_data
      {| move_name := "tackle"; damage_class := "physical"; power := Some 40;
         effect_chance := Some 10; meta := no_meta; stat_changes := [];
         effect_entries :=
           [{| entry_language := "fr";
               entry_effect := "Inflige des degats; $effect_chance% de paralyser." |}] |} =
      Ok (p, s, "No English description found.") ∧
    (secondary_candidates
       {| move_name := "tackle"; damage_class := "physical"; power := Some 40;
          effect_chance := Some 10; meta := no_meta; stat_changes := [];
          effect_entries :=
            [{| entry_language := "fr";
                entry_effect := "Inflige des degats; $effect_chance% de paralyser." |}] |} = [] →
     s = None).
Proof.
  apply no_english_entry_gives_fixed_description.
  apply Forall_cons_2; [ | apply Forall_nil_2 ].
  cbn [entry_language effect_entries]. by_evaluation.
Defined.

(* ===================================================================== *)
(** ** The description scan                                              *)
(* ===================================================================== *)

Lemma dotstar_then_cons lit c s :
  dotstar_then lit (String c s) =
    String.prefix lit (String c s) ||
    (if Ascii.eqb c newline then false else dotstar_then lit s).
Proof. reflexivity. Qed.

Lemma re_search_cons a b c s :
  re_search a b (String c s) =
    (String.prefix a (String c s) &&
     dotstar_then b (drop_chars (String.length a) (String c s))) ||
    re_search a b s.
Proof. reflexivity. Qed.

Lemma dotstar_then_of_prefix lit s :
  String.prefix lit s = true → dotstar_then lit s = true.
Proof. intros H. destruct s; cbn [dotstar_then]; by rewrite H. Qed.

(** A text that starts with [pre ++ lit], [pre] on one line, matches
    [.*lit]. *)
Lemma dotstar_then_longer_prefix pre lit s :
  newline ∉ chars pre →
  String.prefix (pre ++ lit)%string s = true → dotstar_then lit s = true.
Proof.
  revert s. induction pre as [ | c pre IH ]; intros s Hnl H.
  - by apply dotstar_then_of_prefix.
  - rewrite append_cons in H. apply prefix_cons_inv in H as (s' & -> & H).
    rewrite dotstar_then_cons.
    assert (Ascii.eqb c newline = false) as ->.
    { apply Ascii.eqb_neq. intros ->. apply Hnl. cbn [chars].
      apply list_elem_of_here. }
    rewrite IH; [ apply orb_true_r | | done ].
    intros Hin. apply Hnl. cbn [chars]. by apply list_elem_of_further.
Qed.

(** A match of [.*pre lit] is a match of [.*lit]. *)
Lemma dotstar_then_suffix pre lit s :
  newline ∉ chars pre →
  dotstar_then (pre ++ lit)%string s = true → dotstar_then lit s = true.
Proof.
  intros Hnl. induction s as [ | c s IH ].
  - intros H.
    change (String.prefix (pre ++ lit)%string "" || false = true) in H.
    rewrite orb_false_r in H.
    exact (dotstar_then_longer_prefix pre lit "" Hnl H).
  - rewrite !dotstar_then_cons. intros H.
    apply orb_true_iff in H as [H | H].
    + apply (dotstar_then_longer_prefix pre) in H; [ | done ].
      by rewrite dotstar_then_cons in H.
    + destruct (Ascii.eqb c newline); [ discriminate | ].
      rewrite (IH H). apply orb_true_r.
Qed.

(** So the search for [a.*pre lit] finds nothing that the search for
    [a.*lit] does not find. *)
Lemma re_search_suffix a pre lit s :
  newline ∉ chars pre →
  re_search a (pre ++ lit)%string s = true → re_search a lit s = true.
Proof.
  intros Hnl. induction s as [ | c s IH ].
  - intros H.
    change ((String.prefix a "" &&
             dotstar_then (pre ++ lit)%string (drop_chars (String.length a) ""))
            || false = true) in H.
    rewrite orb_false_r in H. apply andb_true_iff in H as [Ha Hb].
    change ((String.prefix a "" &&
             dotstar_then lit (drop_chars (String.length a) "")) || false = true).
    by rewrite Ha, (dotstar_then_suffix pre lit _ Hnl Hb).
  - rewrite !re_search_cons. intros H.
    apply orb_true_iff in H as [H | H].
    + apply andb_true_iff in H as [Ha Hb]. rewrite Ha.
      by rewrite (dotstar_then_suffix pre lit _ Hnl Hb).
    + rewrite (IH H). apply orb_true_r.
Qed.

Lemma special_has_no_newline : newline ∉ chars "special ".
Proof. by_evaluation. Qed.

(** The effects the chain of lines 332-343 can give. The two branches for
    "lower.*special attack" and "lower.*special defense" are never taken:
    a text they match is matched by "lower.*attack" or "lower.*defense"
    before. *)
Lemma inferred_secondary_range desc_lower e :
  inferred_secondary desc_lower = Some e → e ∈ inferable_effects.
Proof.
  unfold inferred_secondary, inferable_effects.
  destruct (contains "paralyze" desc_lower);
    [ intros [= <-];
      repeat first [ apply list_elem_of_here | apply list_elem_of_further ] | ].
  destruct (contains "burn" desc_lower);
    [ intros [= <-];
      repeat first [ apply list_elem_of_here | apply list_elem_of_further ] | ].
  destruct (contains "freeze" desc_lower);
    [ intros [= <-];
      repeat first [ apply list_elem_of_here | apply list_elem_of_further ] | ].
  destruct (contains "poison" desc_lower);
    [ intros [= <-];
      repeat first [ apply list_elem_of_here | apply list_elem_of_further ] | ].
  destruct (contains "flinch" desc_lower);
    [ intros [= <-];
      repeat first [ apply list_elem_of_here | apply list_elem_of_further ] | ].
  destruct (contains "confuse" desc_lower || contains "confusion" desc_lower);
    [ intros [= <-];
      repeat first [ apply list_elem_of_here | apply list_elem_of_further ] | ].
  destruct (re_search "lower" "attack" desc_lower) eqn:Hatk;
    [ intros [= <-];
      repeat first [ apply list_elem_of_here | apply list_elem_of_further ] | ].
  destruct (re_search "lower" "defense" desc_lower) eqn:Hdef;
    [ intros [= <-];
      repeat first [ apply list_elem_of_here | apply list_elem_of_further ] | ].
  destruct (re_search "lower" "special attack" desc_lower) eqn:Hsatk.
  { apply (re_search_suffix "lower" "special " "attack") in Hsatk;
      [ congruence | apply special_has_no_newline ]. }
  destruct (re_search "lower" "special defense" desc_lower) eqn:Hsdef.
  { apply (re_search_suffix "lower" "special " "defense") in Hsdef;
      [ congruence | apply special_has_no_newline ]. }
  destruct (re_search "lower" "speed" desc_lower);
    [ intros [= <-];
      repeat first [ apply list_elem_of_here | apply list_elem_of_further ] | ].
  destruct (re_search "lower" "accuracy" desc_lower);
    [ intros [= <-];
      repeat first [ apply list_elem_of_here | apply list_elem_of_further ] | ].
  discriminate.
Qed.

(** X4: for every record with no candidate from the meta block, a secondary
    effect, when one is returned, is one of the ten effects the description
    scan can infer (a paralysis, burn, freeze or poison status, a flinch or
    confusion volatile status, or a one-stage drop of attack, defense,
    speed or accuracy on the opponent) and its probability is the record's
    generic effect chance. A drop of special attack or special defense is
    never inferred. *)
Theorem text_inferred_secondary_is_one_of_ten (md : MoveData) :
  secondary_candidates md = [] →
  ∃ p s d,
    parse_effect_data md = Ok (p, s, d) ∧
    ∀ sec, s = Some sec →
      effect sec ∈ inferable_effects ∧
      effect sec ≠ one_stage_drop "special_attack" ∧
      effect sec ≠ one_stage_drop "special_defense" ∧
      effect_chance md = Some (chance sec) ∧ 0 < chance sec.
Proof.
  intros Hc.
  destruct (override_cases (move_name md)) as [[_ Hout] | [e [Hin _]]].
  - rewrite (parse_general md Hout). eexists _, _, _.
    split; [ reflexivity | ]. intros sec.
    unfold final_secondary, structured_secondary. rewrite Hc.
    destruct (effect_chance md) as [ec|]; [ | discriminate ].
    destruct (ec >? 0) eqn:Hpos; [ | discriminate ].
    destruct (inferred_secondary _) as [e|] eqn:He; [ | discriminate ].
    intros [= <-]. cbn [effect chance].
    apply inferred_secondary_range in He.
    split; [ exact He | ].
    split; [ | split; [ | split; [ reflexivity | by apply Z.gtb_lt ] ] ].
    + intros ->. unfold inferable_effects in He. list_cases He; discriminate.
    + intros ->. unfold inferable_effects in He. list_cases He; discriminate.
  - rewrite (parse_override md e Hin). eexists _, _, _.
    split; [ reflexivity | ]. intros sec [=].
Qed.

Lemma text_inferred_secondary_is_one_of_ten_witness :
  ∃ p s d,
    parse_effect_data paralyze_text_move = Ok (p, s, d) ∧
    ∀ sec, s = Some sec →
      effect sec ∈ inferable_effects ∧
      effect sec ≠ one_stage_drop "special_attack" ∧
      effect sec ≠ one_stage_drop "special_defense" ∧
      effect_chance paralyze_text_move = Some (chance sec) ∧ 0 < chance sec.
Proof.
  apply (text_inferred_secondary_is_one_of_ten paralyze_text_move).
  vm_compute. reflexivity.
Defined.

(* ===================================================================== *)
(** ** The shape of what is compiled                                     *)
(* ===================================================================== *)

(** A closed effect is checked by evaluation. *)
Ltac closed_shape := unfold well_formed; cbn [parameters type]; by_evaluation.

Lemma map_stat_name_canonical t s :
  map_stat_name t = Some s → s ∈ canonical_stats.
Proof.
  unfold map_stat_name, stat_map. intros E.
  apply getitem_list_to_map in E. list_cases E; simplify_eq; by_evaluation.
Qed.

Lemma recognized_changes_canonical l :
  Forall (λ c, stat c ∈ canonical_stats) (recognized_changes l).
Proof.
  apply Forall_forall. intros c Hc. unfold recognized_changes in Hc.
  apply list_elem_of_omap in Hc as (x & _ & Hx).
  destruct (map_stat_name (stat_name x)) as [s|] eqn:E; [ | discriminate ].
  cbn in Hx. injection Hx as <-. cbn [stat]. by apply map_stat_name_canonical in E.
Qed.

Lemma target_after_side init chs :
  init ∈ ["user"; "target"] → target_after init chs ∈ ["user"; "target"].
Proof.
  intros Hinit. unfold target_after.
  destruct (list.last chs) as [c|]; cbn [from_option]; [ | done ].
  unfold side_of. destruct (stages c <? 0); by_evaluation.
Qed.

Lemma nonempty_inv {A} (l : list A) : nonempty l = true → l ≠ [].
Proof. by destruct l. Qed.

Lemma stat_change_shape init l :
  init ∈ ["user"; "target"] →
  nonempty (recognized_changes l) = true →
  well_formed
    {| type := "stat_change";
       parameters := ChangesParams (recognized_changes l)
                       (target_after init (recognized_changes l)) |}.
Proof.
  intros Hinit Hne. unfold well_formed. cbn [parameters type].
  split; [ reflexivity | ]. split; [ by apply nonempty_inv | ].
  split; [ by apply target_after_side | apply recognized_changes_canonical ].
Qed.

Lemma damage_effect_shape md : well_formed (damage_effect md).
Proof.
  unfold damage_effect.
  destruct (min_hits md), (max_hits md); try closed_shape.
  case_bool_decide; reflexivity.
Qed.

(** The primary effect of a record whose damage class is not physical or
    special: well formed, and never a damage effect. *)
Lemma primary_effect_not_damaging md :
  damage_class md ∉ ["physical"; "special"] →
  well_formed (primary_effect md) ∧
  type (primary_effect md) ∈
    ["apply_volatile_status"; "apply_status"; "stat_change"; "heal";
     "unknown_status"] ∧
  (damage_class md ≠ "status" → primary_effect md = unknown_status).
Proof.
  intros Hdc.
  destruct (decide (damage_class md = "status")) as [Hst | Hst].
  - split; [ | split; [ | done ] ];
      rewrite (primary_effect_status md Hst), (determined_primary_status md Hst);
      cbv zeta;
      destruct (ailment md) as [a|];
      try destruct (ailment_chance md =? 0);
      repeat case_bool_decide;
      destruct (nonempty (stat_changes md));
      destruct (stat_chance md =? 0);
      cbn [andb];
      try destruct (nonempty (recognized_changes (stat_changes md))) eqn:Hrec;
      try destruct (healing md >? 0) eqn:Hheal;
      cbn [default type];
      try by_evaluation; try closed_shape;
      try (apply stat_change_shape; [ by_evaluation | done ]);
      try (unfold well_formed; cbn [parameters type];
           split; [ reflexivity | ]; first
             [ left; split; [ reflexivity | assumption ]
             | right; split;
               [ reflexivity | by apply list_elem_of_further ]
             | split; [ by apply Z.gtb_lt | reflexivity ] ]).
  - assert (primary_effect md = unknown_status) as ->.
    { unfold primary_effect, determined_primary.
      rewrite (bool_decide_eq_false_2 _ Hdc), (bool_decide_eq_false_2 _ Hst).
      reflexivity. }
    split; [ closed_shape | ]. split; [ by_evaluation | done ].
Qed.

Lemma primary_effect_shape md : well_formed (primary_effect md).
Proof.
  destruct (decide (damage_class md ∈ ["physical"; "special"])) as [Hdc | Hdc].
  - rewrite (primary_effect_damaging md Hdc). apply damage_effect_shape.
  - by apply primary_effect_not_damaging.
Qed.

Lemma status_type_shape a ty :
  truthy (status_type a) = Some ty →
  secondary_shape {| type := ty; parameters := StatusParams a "target" |}.
Proof.
  unfold status_type, secondary_shape, well_formed. cbn [parameters type].
  repeat case_bool_decide; cbn [truthy];
    intros E; try discriminate; revert E;
    (destruct (String.eqb _ "") eqn:Hempty; [ discriminate | ]);
    intros [= <-];
    (split; [ split; [ reflexivity | ] | by_evaluation ]).
  - left. by split.
  - right. split; [ reflexivity | by apply list_elem_of_further ].
Qed.

Lemma secondary_candidates_shape md c :
  c ∈ secondary_candidates md → secondary_shape (effect c).
Proof.
  unfold secondary_candidates. rewrite stat_loop_spec. cbv zeta.
  destruct (truthy (ailment md)) as [a|];
    try destruct (ailment_chance md >? 0);
    try destruct (truthy (status_type a)) as [ty|] eqn:Hty;
    destruct (nonempty (stat_changes md));
    destruct (stat_chance md >? 0);
    cbn [andb];
    try destruct (nonempty (recognized_changes (stat_changes md))) eqn:Hrec;
    destruct (flinch_chance md >? 0);
    intros H;
    repeat (apply elem_of_app in H as [H | H]);
    try (by apply elem_of_nil in H);
    apply list_elem_of_singleton in H; subst c; cbn [effect];
    first
      [ by apply status_type_shape
      | split; [ apply stat_change_shape; [ by_evaluation | done ]
               | by_evaluation ]
      | split; [ closed_shape | by_evaluation ] ].
Qed.

Lemma inferable_effects_shape e :
  e ∈ inferable_effects → secondary_shape e.
Proof.
  unfold inferable_effects. intros H.
  list_cases H; subst e; (split; [ closed_shape | by_evaluation ]).
Qed.

Lemma final_secondary_shape md desc sec :
  final_secondary md desc = Some sec → secondary_shape (effect sec).
Proof.
  unfold final_secondary, structured_secondary.
  destruct (secondary_candidates md) as [ | c rest ] eqn:Hc.
  - destruct (effect_chance md) as [ec|]; [ | discriminate ].
    destruct (ec >? 0); [ | discriminate ].
    destruct (inferred_secondary _) as [e|] eqn:He; [ | discriminate ].
    intros [= <-]. cbn [effect].
    by apply inferable_effects_shape, (inferred_secondary_range _ _ He).
  - intros [= <-]. apply (secondary_candidates_shape md).
    rewrite Hc. apply list_elem_of_here.
Qed.

Lemma override_table_shape n e :
  (n, e) ∈ spec_override_table → well_formed e.
Proof.
  unfold spec_override_table. intros H.
  list_cases H; simplify_eq; closed_shape.
Qed.

(** X5: for every record, [parse_effect_data] returns a primary effect whose
    parameters are those of its type: a damage effect has no parameters or
    a multi-hit range; apply_status names a major status and
    apply_volatile_status a volatile status or flinch, both on "target"; a
    stat_change has a non-empty list of canonical stats and the target
    "user" or "target"; a heal has a positive percent on "user"; and so on
    for fixed_damage, switch_target, apply_field_effect and unknown_status.
    A secondary effect, when present, is a well-formed apply_status,
    apply_volatile_status or stat_change effect. *)
Theorem compiled_effects_are_well_formed (md : MoveData) :
  ∃ p s d,
    parse_effect_data md = Ok (p, s, d) ∧
    well_formed p ∧
    ∀ sec, s = Some sec → secondary_shape (effect sec).
Proof.
  destruct (override_cases (move_name md)) as [[_ Hout] | [e [Hin _]]].
  - rewrite (parse_general md Hout). eexists _, _, _.
    split; [ reflexivity | ]. split; [ apply primary_effect_shape | ].
    intros sec. apply final_secondary_shape.
  - rewrite (parse_override md e Hin). eexists _, _, _.
    split; [ reflexivity | ].
    split; [ by apply (override_table_shape _ _ Hin) | ].
    intros sec [=].
Qed.

(** X6: for every record not matching an override, the primary effect has
    type damage exactly when the damage class is physical or special (with
    or without a power); and a damage class other than physical, special
    and status always gives the unknown_status sentinel. *)
Theorem primary_is_damage_iff_damaging_class (md : MoveData) :
  move_name md ∉ override_names →
  ∃ p s d,
    parse_effect_data md = Ok (p, s, d) ∧
    (type p = "damage" ↔ damage_class md ∈ ["physical"; "special"]) ∧
    (damage_class md ∉ ["physical"; "special"; "status"] → p = unknown_status).
Proof.
  intros Hout. rewrite (parse_general md Hout). eexists _, _, _.
  split; [ reflexivity | ].
  destruct (decide (damage_class md ∈ ["physical"; "special"])) as [Hdc | Hdc].
  - rewrite (primary_effect_damaging md Hdc).
    split; [ split; [ done | intros _; apply damage_effect_type ] | ].
    intros Hno. exfalso. apply Hno.
    list_cases Hdc; rewrite Hdc; by_evaluation.
  - destruct (primary_effect_not_damaging md Hdc) as (_ & Hty & Hother).
    split.
    + split; [ | done ]. intros E. rewrite E in Hty. exfalso. revert Hty.
      by_evaluation.
    + intros Hno. apply Hother. intros E. apply Hno. rewrite E. by_evaluation.
Qed.

Lemma primary_is_damage_iff_damaging_class_witness :
  ∃ p s d,
    parse_effect_data tackle = Ok (p, s, d) ∧
    (type p = "damage" ↔ damage_class tackle ∈ ["physical"; "special"]) ∧
    (damage_class tackle ∉ ["physical"; "special"; "status"] →
     p = unknown_status).
Proof.
  apply (primary_is_damage_iff_damaging_class tackle). by_evaluation.
Defined.

(** Every canonical ailment name but three is in one of the two literal
    lists of the compiler, and in one only. *)
Lemma map_status_name_classified t a :
  map_status_name t = Some a →
  t ∉ unclassified_ailment_tags →
  (a ∈ volatile_statuses ∧ a ∉ major_statuses) ∨
  (a ∈ major_statuses ∧ a ∉ volatile_statuses).
Proof.
  unfold map_status_name, status_map. intros E Ht.
  destruct (_ !! t) as [[a'|]|] eqn:El; try discriminate.
  cbn [default] in E. injection E as ->.
  apply getitem_list_to_map in El.
  list_cases El; simplify_eq;
    first [ exfalso; apply Ht; by_evaluation
          | left; split; by_evaluation
          | right; split; by_evaluation ].
Qed.

(** X7: for every status-class record not matching an override whose ailment
    tag is recognized, is none of nightmare, no-type-immunity and silence,
    and has ailment chance exactly 0, the primary effect applies the
    canonical ailment to "target": as apply_volatile_status when the name is
    in the volatile list, as apply_status otherwise (it is then a major
    status). So only those three tags fall to unknown_status. *)
Theorem deterministic_ailment_is_classified (md : MoveData) (a : string) :
  move_name md ∉ override_names →
  damage_class md = "status" →
  ailment md = Some a →
  default "none" (meta_ailment (meta md)) ∉ unclassified_ailment_tags →
  ailment_chance md = 0 →
  ∃ s d,
    parse_effect_data md =
      Ok ({| type := if bool_decide (a ∈ volatile_statuses)
                     then "apply_volatile_status" else "apply_status";
             parameters := StatusParams a "target" |}, s, d) ∧
    (a ∉ volatile_statuses → a ∈ major_statuses).
Proof.
  intros Hout Hdc Hail Htag Hch.
  rewrite (parse_general md Hout).
  rewrite (primary_effect_ailment_branch md a Hdc Hail Hch).
  destruct (map_status_name_classified _ a Hail Htag) as [[Hv Hm] | [Hm Hv]].
  - rewrite (bool_decide_eq_true_2 _ Hv). eexists _, _.
    split; [ reflexivity | done ].
  - rewrite (bool_decide_eq_false_2 _ Hv), (bool_decide_eq_true_2 _ Hm).
    eexists _, _. split; [ reflexivity | done ].
Qed.

Lemma deterministic_ailment_is_classified_witness :
  ∃ s d,
    parse_effect_data (stat_move "trap" 50 raise_then_lower) =
      Ok ({| type := if bool_decide ("bound" ∈ volatile_statuses)
                     then "apply_volatile_status" else "apply_status";
             parameters := StatusParams "bound" "target" |}, s, d) ∧
    ("bound" ∉ volatile_statuses → "bound" ∈ major_statuses).
Proof.
  apply (deterministic_ailment_is_classified
           (stat_move "trap" 50 raise_then_lower) "bound").
  - by_evaluation.
  - reflexivity.
  - reflexivity.
  - by_evaluation.
  - reflexivity.
Defined.

(** X8: whenever [parse_effect_data] returns a secondary effect, the record
    matches no override and the chance placeholder of the description is
    replaced by that secondary effect's probability, also when the
    record's generic effect chance is another number. *)
Theorem description_shows_secondary_probability
    (md : MoveData) (p : Effect) (sec : Secondary) (d : string) :
  parse_effect_data md = Ok (p, Some sec, d) →
  (move_name md ∉ override_names) ∧
  d = replace "{effect_chance}" (str (chance sec))
        (get_english_effect (effect_entries md)).
Proof.
  destruct (override_cases (move_name md)) as [[_ Hout] | [e [Hin _]]].
  - rewrite (parse_general md Hout). intros [= _ Hs <-].
    split; [ done | ]. by rewrite Hs.
  - rewrite (parse_override md e Hin). intros [=].
Qed.

Lemma description_shows_secondary_probability_witness :
  (move_name stat_and_flinch_move ∉ override_names) ∧
  "Has a 20% chance to lower defense or flinch." =
    replace "{effect_chance}" (str 20)
      (get_english_effect (effect_entries stat_and_flinch_move)).
Proof.
  apply (description_shows_secondary_probability stat_and_flinch_move
           {| type := "damage"; parameters := NoParams |}
           {| chance := 20;
              effect :=
                {| type := "stat_change";
                   parameters :=
                     ChangesParams [{| stat := "defense"; stages := -1 |}]
                       "target" |} |}).
  vm_compute. reflexivity.
Defined.

(* ===================================================================== *)
(** ** The batch driver                                                  *)
(* ===================================================================== *)

Lemma map_target_canonical tag : map_target tag ∈ canonical_targets.
Proof.
  unfold map_target. destruct (target_map !! tag) as [v|] eqn:E.
  - apply (target_map_canonical tag v E).
  - by_evaluation.
Qed.

(** A document of the typed record is skipped exactly when it has no effect
    entry: on such a document [parse_effect_data] never raises. *)
Lemma move_output_None m :
  move_output m = None ↔ effect_entries (json_move m) = [].
Proof.
  unfold move_output.
  destruct (effect_entries (json_move m)) as [ | x l ] eqn:E; cbn [nonempty].
  - done.
  - destruct (parse_effect_data_returns (json_move m)) as (p & s & d & ->).
    split; discriminate.
Qed.

Lemma process_lookup acc i r k :
  process acc (i, r) !! k =
    match entry_of r with
    | Some o => if decide (str i = k) then Some o else acc !! k
    | None => acc !! k
    end.
Proof.
  unfold process, entry_of. cbn [fst snd].
  destruct r as [ | | m ]; [ done | done | ].
  destruct (move_output m) as [o|]; [ | done ].
  apply lookup_insert.
Qed.

(** Turns for other keys leave a key as it was. *)
Lemma fold_process_other turns acc k :
  (∀ i r, (i, r) ∈ turns → str i ≠ k) →
  fold_left process turns acc !! k = acc !! k.
Proof.
  revert acc. induction turns as [ | [j r'] turns IH ]; intros acc H; [ done | ].
  cbn [fold_left]. rewrite IH.
  - rewrite process_lookup. destruct (entry_of r'); [ | done ].
    rewrite decide_False; [ done | ]. apply (H j r'), list_elem_of_here.
  - intros i r Hin. apply (H i r). by apply list_elem_of_further.
Qed.

Lemma fold_process_entry turns acc i r :
  NoDup turns.*1 → (i, r) ∈ turns →
  fold_left process turns acc !! str i =
    match entry_of r with
    | Some o => Some o
    | None => acc !! str i
    end.
Proof.
  revert acc. induction turns as [ | [j r'] turns IH ]; intros acc Hnd Hin.
  - by apply elem_of_nil in Hin.
  - cbn [fmap list_fmap fst] in Hnd. apply NoDup_cons in Hnd as [Hj Hnd].
    cbn [fold_left]. apply elem_of_cons in Hin as [[= <- <-] | Hin].
    + rewrite fold_process_other.
      * rewrite process_lookup. destruct (entry_of r); [ | done ].
        by rewrite decide_True.
      * intros i' r0 Hin' E. apply str_inj in E as ->.
        apply Hj. apply list_elem_of_fmap. by exists (i, r0).
    + rewrite (IH _ Hnd Hin). destruct (entry_of r); [ done | ].
      rewrite process_lookup. destruct (entry_of r'); [ | done ].
      rewrite decide_False; [ done | ].
      intros E. apply str_inj in E as ->.
      apply Hj. apply list_elem_of_fmap. by exists (i, r).
Qed.

Lemma fold_process_source turns acc k o :
  fold_left process turns acc !! k = Some o →
  acc !! k = Some o ∨
  ∃ i m, (i, Fetched m) ∈ turns ∧ k = str i ∧ move_output m = Some o.
Proof.
  revert acc. induction turns as [ | [j r'] turns IH ]; intros acc H.
  - by left.
  - cbn [fold_left] in H. apply IH in H as [H | (i & m & Hin & Hk & Ho)].
    + rewrite process_lookup in H.
      destruct r' as [ | | m ]; cbn [entry_of] in H; [ by left | by left | ].
      destruct (move_output m) as [o'|] eqn:Hm; [ | by left ].
      destruct (decide (str j = k)) as [<- | ]; [ | by left ].
      injection H as <-. right. exists j, m.
      split; [ apply list_elem_of_here | done ].
    + right. exists i, m. split; [ by apply list_elem_of_further | done ].
Qed.

(** X9: when the move ids of the loop are pairwise distinct, the entry
    stored under [str(move_id)] depends on the outcome of that id's own
    turn only: it is the compiled entry when the body is a document of the
    typed record with effect entries, and it is absent exactly when the
    request failed, or processing the body raised, or the document has no
    effect entries. A failure for one id leaves the entries of the others
    as they are. *)
Theorem main_loop_entry_depends_on_own_turn
    (turns : list (Z * Fetch)) (move_id : Z) (response : Fetch) :
  NoDup turns.*1 →
  (move_id, response) ∈ turns →
  main_loop turns !! str move_id = entry_of response ∧
  (main_loop turns !! str move_id = None ↔
   response = RequestFailed ∨ response = ProcessingRaised ∨
   ∃ m, response = Fetched m ∧ effect_entries (json_move m) = []).
Proof.
  intros Hnd Hin.
  assert (main_loop turns !! str move_id = entry_of response) as Hlook.
  { unfold main_loop. rewrite (fold_process_entry _ _ _ _ Hnd Hin).
    by destruct (entry_of response). }
  split; [ done | ]. rewrite Hlook.
  destruct response as [ | | m ]; cbn [entry_of].
  - split; [ by left | done ].
  - split; [ right; by left | done ].
  - rewrite move_output_None. split.
    + intros H. right. right. by exists m.
    + intros [ [=] | [ [=] | (m' & [= <-] & H) ] ]. done.
Qed.

Lemma main_loop_entry_depends_on_own_turn_witness :
  main_loop [(1, RequestFailed); (2, ProcessingRaised);
             (33, Fetched tackle_json)] !! str 33 =
    entry_of (Fetched tackle_json) ∧
  (main_loop [(1, RequestFailed); (2, ProcessingRaised);
              (33, Fetched tackle_json)] !! str 33 = None ↔
   Fetched tackle_json = RequestFailed ∨
   Fetched tackle_json = ProcessingRaised ∨
   ∃ m, Fetched tackle_json = Fetched m ∧ effect_entries (json_move m) = []).
Proof.
  apply (main_loop_entry_depends_on_own_turn
           [(1, RequestFailed); (2, ProcessingRaised);
            (33, Fetched tackle_json)] 33 (Fetched tackle_json)).
  - by_evaluation.
  - apply list_elem_of_further, list_elem_of_further, list_elem_of_here.
Defined.

(** X10: every entry of [all_moves_data] after the loop was stored by a turn
    whose request succeeded: its key is [str(move_id)] of that turn, the
    fetched document has at least one effect entry, and the entry is the
    one compiled from it. Ids may repeat. *)
Theorem main_loop_entries_come_from_fetched_moves
    (turns : list (Z * Fetch)) (key : string) (out : MoveOutput) :
  main_loop turns !! key = Some out →
  ∃ move_id m,
    (move_id, Fetched m) ∈ turns ∧ key = str move_id ∧
    effect_entries (json_move m) ≠ [] ∧ move_output m = Some out.
Proof.
  intros H. apply fold_process_source in H as [H | (i & m & Hin & Hk & Ho)].
  - by rewrite lookup_empty in H.
  - exists i, m. split; [ done | ]. split; [ done | ]. split; [ | done ].
    intros E. apply move_output_None in E. congruence.
Qed.

Lemma main_loop_entries_come_from_fetched_moves_witness :
  ∃ move_id m,
    (move_id, Fetched m) ∈ [(1, RequestFailed); (33, Fetched tackle_json)] ∧
    "33" = str move_id ∧
    effect_entries (json_move m) ≠ [] ∧ move_output m = Some tackle_output.
Proof.
  apply (main_loop_entries_come_from_fetched_moves
           [(1, RequestFailed); (33, Fetched tackle_json)] "33" tackle_output).
  vm_compute. reflexivity.
Defined.

(** X11: every entry of [all_moves_data] after the loop has a canonical
    target, a well-formed primary effect, a secondary effect that, when
    present, is a well-formed apply_status, apply_volatile_status or
    stat_change effect, and a description with no [{effect_chance}]
    placeholder left. *)
Theorem main_loop_entries_are_well_formed
    (turns : list (Z * Fetch)) (key : string) (out : MoveOutput) :
  main_loop turns !! key = Some out →
  out_target out ∈ canonical_targets ∧
  well_formed (out_effect out) ∧
  (∀ sec, out_secondary_effect out = Some sec → secondary_shape (effect sec)) ∧
  contains "{effect_chance}" (out_description out) = false.
Proof.
  intros H.
  apply main_loop_entries_come_from_fetched_moves in H
    as (i & m & _ & _ & _ & Ho).
  unfold move_output in Ho.
  destruct (nonempty _); [ | discriminate ].
  destruct (compiled_effects_are_well_formed (json_move m))
    as (p & s & d & Hp & Hwf & Hsec).
  destruct (description_has_no_placeholder_left (json_move m))
    as (p' & s' & d' & Hp' & Hd).
  rewrite Hp in Hp'. injection Hp' as <- <- <-.
  rewrite Hp in Ho. injection Ho as <-.
  cbn [out_target out_effect out_secondary_effect out_description].
  split; [ | done ].
  apply map_target_canonical.
Qed.

Lemma main_loop_entries_are_well_formed_witness :
  out_target tackle_output ∈ canonical_targets ∧
  well_formed (out_effect tackle_output) ∧
  (∀ sec, out_secondary_effect tackle_output = Some sec →
          secondary_shape (effect sec)) ∧
  contains "{effect_chance}" (out_description tackle_output) = false.
Proof.
  apply (main_loop_entries_are_well_formed
           [(1, RequestFailed); (33, Fetched tackle_json)] "33" tackle_output).
  vm_compute. reflexivity.
Defined.

(* ===================================================================== *)
(** ** The move-id list                                                  *)
(* ===================================================================== *)

(** The inner loop: it fails on an empty move, and otherwise adds the first
    item of every move. *)
Lemma add_moves_None acc ms : add_moves acc ms = None ↔ [] ∈ ms.
Proof.
  revert acc. induction ms as [ | move ms IH ]; intros acc; cbn [add_moves].
  - split; [ discriminate | intros H; by apply elem_of_nil in H ].
  - destruct move as [ | x move ].
    + split; [ intros _; apply list_elem_of_here | done ].
    + rewrite IH. split; [ by apply list_elem_of_further | ].
      intros H. apply elem_of_cons in H as [ [=] | H ]. done.
Qed.

Lemma add_moves_Some acc ms ids :
  add_moves acc ms = Some ids →
  ∀ x, x ∈ ids ↔ x ∈ acc ∨ ∃ move, move ∈ ms ∧ head move = Some x.
Proof.
  revert acc. induction ms as [ | move ms IH ]; intros acc; cbn [add_moves].
  - intros [= <-] x. split; [ by left | ].
    intros [ H | (move & H & _) ]; [ done | by apply elem_of_nil in H ].
  - destruct move as [ | y move ]; [ discriminate | ].
    intros H x. rewrite (IH _ H x). rewrite elem_of_union, elem_of_singleton.
    split.
    + intros [ [ -> | Hacc ] | (m & Hm & Hx) ].
      * right. exists (y :: move). split; [ apply list_elem_of_here | done ].
      * by left.
      * right. exists m. split; [ by apply list_elem_of_further | done ].
    + intros [ Hacc | (m & Hm & Hx) ]; [ left; by right | ].
      apply elem_of_cons in Hm as [ -> | Hm ].
      * left. left. cbn in Hx. by injection Hx as <-.
      * right. by exists m.
Qed.

Lemma all_moves_cons p ps : all_moves (p :: ps) = moves p ++ all_moves ps.
Proof. reflexivity. Qed.

Lemma elem_of_all_moves move ps :
  move ∈ all_moves ps ↔ ∃ p, p ∈ ps ∧ move ∈ moves p.
Proof.
  unfold all_moves. rewrite list_elem_of_bind. split.
  - intros (p & Hm & Hp). by exists p.
  - intros (p & Hp & Hm). by exists p.
Qed.

Lemma add_pokemons_None acc ps :
  add_pokemons acc ps = None ↔ [] ∈ all_moves ps.
Proof.
  revert acc. induction ps as [ | p ps IH ]; intros acc; cbn [add_pokemons].
  - split; [ discriminate | intros H; by apply elem_of_nil in H ].
  - rewrite all_moves_cons, elem_of_app.
    destruct (add_moves acc (moves p)) as [ids|] eqn:E.
    + rewrite IH. split; [ by right | ].
      intros [ H | H ]; [ | done ].
      apply (add_moves_None acc) in H. congruence.
    + apply add_moves_None in E. split; [ by left | done ].
Qed.

Lemma add_pokemons_Some acc ps ids :
  add_pokemons acc ps = Some ids →
  ∀ x, x ∈ ids ↔ x ∈ acc ∨ ∃ move, move ∈ all_moves ps ∧ head move = Some x.
Proof.
  revert acc. induction ps as [ | p ps IH ]; intros acc; cbn [add_pokemons].
  - intros [= <-] x. split; [ by left | ].
    intros [ H | (move & H & _) ]; [ done | by apply elem_of_nil in H ].
  - destruct (add_moves acc (moves p)) as [ids'|] eqn:E; [ | discriminate ].
    intros H x. rewrite (IH _ H x), (add_moves_Some _ _ _ E x).
    rewrite all_moves_cons. split.
    + intros [ [ Hacc | (m & Hm & Hx) ] | (m & Hm & Hx) ].
      * by left.
      * right. exists m. split; [ apply elem_of_app; by left | done ].
      * right. exists m. split; [ apply elem_of_app; by right | done ].
    + intros [ Hacc | (m & Hm & Hx) ]; [ left; by left | ].
      apply elem_of_app in Hm as [ Hm | Hm ].
      * left. right. by exists m.
      * right. by exists m.
Qed.

(** A list sorted by [≤] without a repeated element is strictly
    increasing. *)
Lemma StronglySorted_le_lt (l : list Z) :
  StronglySorted Z.le l → NoDup l → StronglySorted Z.lt l.
Proof.
  induction 1 as [ | x l Hs IH Hx ]; intros Hnd; [ constructor | ].
  apply NoDup_cons in Hnd as [Hnot Hnd]. constructor; [ by apply IH | ].
  apply Forall_forall. intros y Hy.
  rewrite Forall_forall in Hx. specialize (Hx y Hy).
  assert (x ≠ y) by (intros ->; done). lia.
Qed.

(** Two strictly increasing lists with the same elements are equal. *)
Lemma StronglySorted_lt_unique (l1 l2 : list Z) :
  StronglySorted Z.lt l1 → StronglySorted Z.lt l2 →
  (∀ x, x ∈ l1 ↔ x ∈ l2) → l1 = l2.
Proof.
  intros H1. revert l2. induction H1 as [ | x l1 Hs1 IH Hx ]; intros l2 H2 Heq.
  - destruct l2 as [ | y l2 ]; [ done | ].
    exfalso. apply (elem_of_nil y), Heq, list_elem_of_here.
  - destruct H2 as [ | y l2 Hs2 Hy ].
    + exfalso. apply (elem_of_nil x), Heq, list_elem_of_here.
    + rewrite Forall_forall in Hx, Hy.
      assert (x = y) as <-.
      { assert (x ∈ y :: l2) as Hxin by apply Heq, list_elem_of_here.
        assert (y ∈ x :: l1) as Hyin by apply Heq, list_elem_of_here.
        apply elem_of_cons in Hxin as [ -> | Hxin ]; [ done | ].
        apply elem_of_cons in Hyin as [ -> | Hyin ]; [ done | ].
        specialize (Hx y Hyin). specialize (Hy x Hxin). lia. }
      f_equal. apply IH; [ done | ]. intros z. split; intros Hz.
      * assert (z ∈ x :: l2) as Hin by (apply Heq; by apply list_elem_of_further).
        apply elem_of_cons in Hin as [ -> | Hin ]; [ | done ].
        specialize (Hx x Hz). lia.
      * assert (z ∈ x :: l1) as Hin by (apply Heq; by apply list_elem_of_further).
        apply elem_of_cons in Hin as [ -> | Hin ]; [ | done ].
        specialize (Hy x Hz). lia.
Qed.

Lemma sorted_elements (ids : gset Z) :
  StronglySorted Z.lt (merge_sort Z.le (elements ids)) ∧
  ∀ x, x ∈ merge_sort Z.le (elements ids) ↔ x ∈ ids.
Proof.
  split.
  - apply StronglySorted_le_lt; [ apply StronglySorted_merge_sort; apply _ | ].
    rewrite merge_sort_Permutation. apply NoDup_elements.
  - intros x. rewrite merge_sort_Permutation. apply elem_of_elements.
Qed.

(** X12: when [extract_move_ids] returns, the list it writes is strictly
    increasing (sorted, with no id twice), and an id is in it exactly when
    it is the first item of a move of some pokemon of the roster. *)
Theorem extract_move_ids_sorted_and_complete
    (pokemons : list Pokemon) (move_ids : list Z) :
  extract_move_ids pokemons = Some move_ids →
  StronglySorted Z.lt move_ids ∧
  ∀ x, x ∈ move_ids ↔
       ∃ pokemon move, pokemon ∈ pokemons ∧ move ∈ moves pokemon ∧
                       head move = Some x.
Proof.
  unfold extract_move_ids.
  destruct (add_pokemons ∅ pokemons) as [ids|] eqn:E; [ | discriminate ].
  intros [= <-]. destruct (sorted_elements ids) as [Hs Hin].
  split; [ done | ]. intros x.
  rewrite Hin, (add_pokemons_Some _ _ _ E x). split.
  - intros [ H | (m & Hm & Hx) ]; [ by apply not_elem_of_empty in H | ].
    apply elem_of_all_moves in Hm as (p & Hp & Hm). by exists p, m.
  - intros (p & m & Hp & Hm & Hx). right. exists m.
    split; [ | done ]. apply elem_of_all_moves. by exists p.
Qed.

Lemma extract_move_ids_sorted_and_complete_witness :
  StronglySorted Z.lt [1; 33; 45] ∧
  ∀ x, x ∈ [1; 33; 45] ↔
       ∃ pokemon move,
         pokemon ∈ [ {| moves := [[45; 1]; [33; 1]] |};
                     {| moves := [[33; 5]; [1; 7]] |} ] ∧
         move ∈ moves pokemon ∧ head move = Some x.
Proof.
  apply (extract_move_ids_sorted_and_complete
           [ {| moves := [[45; 1]; [33; 1]] |};
             {| moves := [[33; 5]; [1; 7]] |} ] [1; 33; 45]).
  vm_compute. reflexivity.
Defined.

(** X13: [extract_move_ids] fails (the [IndexError] of [move[0]]) exactly
    when some pokemon of the roster has an empty move; otherwise it returns
    a list, the empty list for a roster with no move at all. *)
Theorem extract_move_ids_fails_iff_empty_move (pokemons : list Pokemon) :
  extract_move_ids pokemons = None ↔
  ∃ pokemon, pokemon ∈ pokemons ∧ [] ∈ moves pokemon.
Proof.
  unfold extract_move_ids.
  destruct (add_pokemons ∅ pokemons) as [ids|] eqn:E.
  - split; [ discriminate | ]. intros (p & Hp & Hm).
    assert (add_pokemons ∅ pokemons = None) as E'.
    { apply add_pokemons_None, elem_of_all_moves. by exists p. }
    congruence.
  - split; [ | done ]. intros _.
    apply add_pokemons_None, elem_of_all_moves in E. done.
Qed.

(** X14: the list depends only on which moves occur in the roster: two
    rosters with the same moves, in any order and any number of times, give
    the same result. *)
Theorem extract_move_ids_ignores_order_and_repeats
    (pokemons pokemons' : list Pokemon) :
  (∀ move, move ∈ all_moves pokemons ↔ move ∈ all_moves pokemons') →
  extract_move_ids pokemons = extract_move_ids pokemons'.
Proof.
  intros Hsame.
  destruct (extract_move_ids pokemons) as [l|] eqn:E;
    destruct (extract_move_ids pokemons') as [l'|] eqn:E'.
  - f_equal.
    destruct (extract_move_ids_sorted_and_complete _ _ E) as [Hs Hin].
    destruct (extract_move_ids_sorted_and_complete _ _ E') as [Hs' Hin'].
    apply StronglySorted_lt_unique; [ done | done | ].
    intros x. rewrite Hin, Hin'. split.
    + intros (p & m & Hp & Hm & Hx).
      assert (m ∈ all_moves pokemons') as Hm'
        by (apply Hsame, elem_of_all_moves; by exists p).
      apply elem_of_all_moves in Hm' as (p' & Hp' & Hm'). by exists p', m.
    + intros (p & m & Hp & Hm & Hx).
      assert (m ∈ all_moves pokemons) as Hm'
        by (apply Hsame, elem_of_all_moves; by exists p).
      apply elem_of_all_moves in Hm' as (p' & Hp' & Hm'). by exists p', m.
  - exfalso. apply extract_move_ids_fails_iff_empty_move in E' as (p & Hp & Hm).
    assert ([] ∈ all_moves pokemons) as Hm'
      by (apply Hsame, elem_of_all_moves; by exists p).
    apply elem_of_all_moves in Hm'.
    apply extract_move_ids_fails_iff_empty_move in Hm'. congruence.
  - exfalso. apply extract_move_ids_fails_iff_empty_move in E as (p & Hp & Hm).
    assert ([] ∈ all_moves pokemons') as Hm'
      by (apply Hsame, elem_of_all_moves; by exists p).
    apply elem_of_all_moves in Hm'.
    apply extract_move_ids_fails_iff_empty_move in Hm'. congruence.
  - done.
Qed.

Lemma extract_move_ids_ignores_order_and_repeats_witness :
  extract_move_ids [ {| moves := [[45; 1]; [33; 1]] |} ] =
  extract_move_ids [ {| moves := [[33; 1]] |};
                     {| moves := [[45; 1]; [33; 1]] |} ].
Proof.
  apply (extract_move_ids_ignores_order_and_repeats
           [ {| moves := [[45; 1]; [33; 1]] |} ]
           [ {| moves := [[33; 1]] |}; {| moves := [[45; 1]; [33; 1]] |} ]).
  intros move. vm_compute.
  split; intros H;
    repeat (apply elem_of_cons in H as [ -> | H ]);
    try (by apply elem_of_nil in H);
    repeat first [ apply list_elem_of_here | apply list_elem_of_further ].
Defined.

(* ===================================================================== *)
(** ** The type chart                                                    *)
(* ===================================================================== *)

Lemma set_row_lookup v targets row x :
  set_row v targets row !! x =
    if bool_decide (x ∈ targets) then Some v else row !! x.
Proof.
  unfold set_row. revert row.
  induction targets as [ | t targets IH ]; intros row; cbn [fold_left].
  - by rewrite bool_decide_eq_false_2 by apply not_elem_of_nil.
  - rewrite IH. destruct (decide (x ∈ targets)) as [Hin | Hnot].
    + rewrite !bool_decide_eq_true_2; [ done | | done ].
      by apply list_elem_of_further.
    + rewrite (bool_decide_eq_false_2 _ Hnot).
      destruct (decide (t = x)) as [ -> | Hne ].
      * rewrite lookup_insert_eq.
        by rewrite bool_decide_eq_true_2 by apply list_elem_of_here.
      * rewrite lookup_insert_ne by done.
        rewrite bool_decide_eq_false_2; [ done | ].
        intros H. apply elem_of_cons in H as [ -> | H ]; done.
Qed.

(** The writes through [type_chart[type_name]] reach that row only. *)
Lemma set_all_lookup type_name v targets chart t :
  set_all type_name v targets chart !! t =
    if decide (type_name = t)
    then set_row v targets <$> chart !! t
    else chart !! t.
Proof.
  unfold set_all, set_row. revert chart.
  induction targets as [ | x targets IH ]; intros chart; cbn [fold_left].
  - case_decide; [ | done ]. by destruct (chart !! t).
  - rewrite IH. case_decide as Ht.
    + subst t. rewrite lookup_alter_eq. by destruct (chart !! type_name).
    + by rewrite lookup_alter_ne.
Qed.

Lemma add_type_lookup responses chart type_name t :
  add_type responses chart type_name !! t =
    match responses type_name with
    | Some damage_relations =>
        if decide (type_name = t) then Some (row_of damage_relations)
        else chart !! t
    | None => chart !! t
    end.
Proof.
  unfold add_type, row_of.
  destruct (responses type_name) as [dr|]; [ | done ].
  cbv zeta. rewrite !set_all_lookup. case_decide as Ht.
  - subst t. by rewrite lookup_insert_eq.
  - by rewrite lookup_insert_ne.
Qed.

Lemma fold_add_type_lookup responses names chart t :
  fold_left (add_type responses) names chart !! t =
    if bool_decide (t ∈ names)
    then match responses t with
         | Some damage_relations => Some (row_of damage_relations)
         | None => chart !! t
         end
    else chart !! t.
Proof.
  revert chart. induction names as [ | n names IH ]; intros chart; cbn [fold_left].
  - by rewrite bool_decide_eq_false_2 by apply not_elem_of_nil.
  - rewrite IH, add_type_lookup.
    destruct (decide (n = t)) as [ -> | Hne ].
    + rewrite (bool_decide_eq_true_2 (t ∈ t :: names))
        by apply list_elem_of_here.
      destruct (responses t) as [dr|];
        destruct (bool_decide (t ∈ names));
        rewrite ?decide_True by done; done.
    + assert (bool_decide (t ∈ n :: names) = bool_decide (t ∈ names)) as ->.
      { apply bool_decide_ext. rewrite elem_of_cons.
        split; [ intros [ E | H ]; [ by symmetry in E | done ] | by right ]. }
      by destruct (responses n).
Qed.

Lemma row_of_lookup damage_relations target :
  row_of damage_relations !! target = multiplier damage_relations target.
Proof.
  unfold row_of, multiplier. rewrite !set_row_lookup.
  by rewrite lookup_empty.
Qed.

(** X15: for each of the eighteen type names whose request answers 200, the
    chart has a row for that type, and the row gives a target 0.0 if the
    no-damage list names it, else 0.5 if the half-damage list names it, else
    2.0 if the double-damage list names it, and nothing otherwise: when
    lists overlap, the later loop overwrites the earlier one. *)
Theorem type_chart_row_follows_last_list
    (responses : string → option DamageRelations)
    (type_name : string) (damage_relations : DamageRelations) :
  type_name ∈ type_names →
  responses type_name = Some damage_relations →
  ∃ row,
    fetch_type_data responses !! type_name = Some row ∧
    ∀ target, row !! target = multiplier damage_relations target.
Proof.
  intros Hin Hresp. exists (row_of damage_relations).
  split; [ | apply row_of_lookup ].
  unfold fetch_type_data.
  by rewrite fold_add_type_lookup, (bool_decide_eq_true_2 _ Hin), Hresp.
Qed.

Lemma type_chart_row_follows_last_list_witness :
  ∃ row,
    fetch_type_data
      (λ _, Some {| double_damage_to := ["grass"; "ice"];
                    half_damage_to := ["fire"; "ice"];
                    no_damage_to := [] |}) !! "fire" = Some row ∧
    ∀ target,
      row !! target =
        multiplier {| double_damage_to := ["grass"; "ice"];
                      half_damage_to := ["fire"; "ice"];
                      no_damage_to := [] |} target.
Proof.
  apply (type_chart_row_follows_last_list
           (λ _, Some {| double_damage_to := ["grass"; "ice"];
                         half_damage_to := ["fire"; "ice"];
                         no_damage_to := [] |}) "fire").
  - by_evaluation.
  - reflexivity.
Defined.

(** X16: the chart has no row for a type exactly when the name is not one
    of the eighteen type names or its request did not answer 200; a failed
    request removes nothing else. *)
Theorem type_chart_rows_are_the_fetched_types
    (responses : string → option DamageRelations) (type_name : string) :
  fetch_type_data responses !! type_name = None ↔
  type_name ∉ type_names ∨ responses type_name = None.
Proof.
  unfold fetch_type_data. rewrite fold_add_type_lookup, lookup_empty.
  case_bool_decide as Hin.
  - destruct (responses type_name) as [dr|].
    + split; [ discriminate | intros [ H | [=] ]; done ].
    + split; [ by right | done ].
  - split; [ by left | done ].
Qed.

(* ===================================================================== *)
(** ** The normalizers                                                   *)
(* ===================================================================== *)

(** X17: the stat and status normalizers never map two different provider
    tags to the same canonical name: a canonical stat or status determines
    the tag it came from. (The target normalizer does merge tags.) *)
Theorem stat_and_status_normalizers_are_injective :
  (∀ t1 t2 s, map_stat_name t1 = Some s → map_stat_name t2 = Some s → t1 = t2) ∧
  (∀ t1 t2 a,
     map_status_name t1 = Some a → map_status_name t2 = Some a → t1 = t2) ∧
  (∃ t1 t2, t1 ≠ t2 ∧ map_target t1 = map_target t2 ∧
            is_Some (target_map !! t1) ∧ is_Some (target_map !! t2)).
Proof.
  split; [ | split ].
  - unfold map_stat_name, stat_map. intros t1 t2 s E1 E2.
    apply getitem_list_to_map in E1, E2.
    list_cases E1; simplify_eq; list_cases E2; by simplify_eq.
  - unfold map_status_name, status_map. intros t1 t2 a E1 E2.
    destruct (_ !! t1) as [[a1|]|] eqn:El1; try discriminate.
    destruct (_ !! t2) as [[a2|]|] eqn:El2; try discriminate.
    cbn [default] in E1, E2. injection E1 as ->. injection E2 as ->.
    apply getitem_list_to_map in El1, El2.
    list_cases El1; simplify_eq; list_cases El2; by simplify_eq.
  - exists "specific-move", "user".
    split; [ by_evaluation | ]. split; [ reflexivity | ].
    split; eexists; reflexivity.
Qed.
